(** * youbet-task: the red-packet split and the pull-request pager

    Two pieces of the dashboard carry logic worth checking:

    - [randomDistribute] (reward dialog): cuts the unit interval at
      [people - 1] random points and turns the gaps into shares of
      [amount], rounded to cents, with the rounding residual added to
      the last share;
    - the four page buttons of [PullRequestsTable].

    Around them: the pattern the amount field is checked against, the
    amounts the dialog keeps and what [onSubmit] does with them, and the
    query window and row filter of the table.

    JavaScript numbers are IEEE 754 doubles: [spec_float] with a 53-bit
    mantissa, added, subtracted and multiplied with rounding to nearest,
    ties to even.  Lodash rounds a number through its decimal text, so
    the shortest decimal that reads back as a double and the reading of
    a decimal are written out too.  [Math.random] is a state: an
    infinite supply of draws from which each call takes the next one. *)

From Stdlib Require Import ZArith Lia.
From Stdlib Require Import Sorting.Sorted Sorting.Permutation.
From stdpp Require Import base list sorting strings.
From Stdlib Require Import Ascii.
From Stdlib Require Import SpecFloat.

Local Open Scope nat_scope.

(** ** JavaScript numbers *)

Module Double.

Definition prec : Z := 53.
Definition emax : Z := 1024.
Definition number := spec_float.

(** [x + y], [x - y], [x * y], [x < y], [x <= y] *)
Definition add : number -> number -> number := SFadd prec emax.
Definition sub : number -> number -> number := SFsub prec emax.
Definition mul : number -> number -> number := SFmul prec emax.
Definition lt : number -> number -> bool := SFltb.
Definition le : number -> number -> bool := SFleb.

Definition isFinite (x : number) : bool :=
  match x with
  | S754_zero _ | S754_finite _ _ _ => true
  | S754_infinity _ | S754_nan => false
  end.

(** The same double, sign of zero included. *)
Definition same (x y : number) : bool :=
  match x, y with
  | S754_zero s, S754_zero s' => Bool.eqb s s'
  | S754_infinity s, S754_infinity s' => Bool.eqb s s'
  | S754_nan, S754_nan => true
  | S754_finite s m e, S754_finite s' m' e' =>
      Bool.eqb s s' && Pos.eqb m m' && Z.eqb e e'
  | _, _ => false
  end.

(** The double nearest to [n / d], for [n] and [d] above 0, with the sign
    [s]: the quotient is taken with two bits to spare, or at the
    smallest exponent, and rounded, a tie going to the even mantissa;
    past the largest double it is an infinity. *)
Definition nearest (s : bool) (n d : Z) : number :=
  let e := Z.max (Z.log2 n - Z.log2 d - 55) (3 - emax - prec) in
  let num := if (0 <=? e)%Z then n else (n * 2 ^ (- e))%Z in
  let den := if (0 <=? e)%Z then (d * 2 ^ e)%Z else d in
  let '(q, r) := Z.div_eucl num den in
  binary_round_aux prec emax s q e (new_location den r).

(** The double of a whole number [q >= 0] with the sign [s]. *)
Definition integer (s : bool) (q : Z) : number :=
  if (q =? 0)%Z then S754_zero s else nearest s q 1.

(** What the text of a number says: digits times a power of ten, or
    Infinity, or NaN. *)
Inductive numeral :=
| Dec (negative : bool) (digits exponent : Z)
| Inf (negative : bool)
| NaN.

(** [Number(text)] for the text of [digits] times ten to the
    [exponent]. *)
Definition from_decimal (s : bool) (digits exponent : Z) : number :=
  if (digits <=? 0)%Z then S754_zero s
  else if (0 <=? exponent)%Z then nearest s (digits * 10 ^ exponent) 1
  else nearest s digits (10 ^ (- exponent)).

(** A number written in the source, as [1e18] or [0.02]. *)
Definition literal (digits exponent : Z) : number :=
  from_decimal (digits <? 0)%Z (Z.abs digits) exponent.

(** Is [n / d] at least ten to the [t]? *)
Definition reaches (n d t : Z) : bool :=
  if (0 <=? t)%Z then (d * 10 ^ t <=? n)%Z else (d <=? n * 10 ^ (- t))%Z.

(** The power of ten at or just below [n / d]. *)
Definition magnitude (n d : Z) : Z :=
  let t := ((Z.log2 n - Z.log2 d) * 30103 / 100000)%Z in
  if reaches n d (t + 2) then (t + 2)%Z
  else if reaches n d (t + 1) then (t + 1)%Z
  else if reaches n d t then t
  else if reaches n d (t - 1) then (t - 1)%Z
  else (t - 2)%Z.

(** The digits of [String(x)] for [x = n / d > 0]: with [k] digits, then
    [k + 1], and so on, the decimal just below [x] and the one just
    above are read back; the first that gives [x] again is taken, the
    closer of the two if both do, the even one if they are as close. *)
Fixpoint shortest (more : nat) (k : Z) (x : number) (n d t : Z) : Z * Z :=
  let p := (t - (k - 1))%Z in
  let unit := if (0 <=? p)%Z then (d * 10 ^ p)%Z else d in
  let '(lo, r) :=
    Z.div_eucl (if (0 <=? p)%Z then n else (n * 10 ^ (- p))%Z) unit in
  let hi := (lo + 1)%Z in
  let ok_lo := same (from_decimal false lo p) x in
  let ok_hi := same (from_decimal false hi p) x in
  let lo_closer :=
    match (2 * r ?= unit)%Z with
    | Lt => true
    | Gt => false
    | Eq => Z.even lo
    end in
  if ok_lo && (negb ok_hi || lo_closer) then (lo, p)
  else if ok_hi then (hi, p)
  else match more with
       | O => (lo, p)
       | S more' => shortest more' (k + 1) x n d t
       end.

(** [String(x)], with lodash's ['-0'] for the negative zero. *)
Definition to_decimal (x : number) : numeral :=
  match x with
  | S754_zero s => Dec s 0 0
  | S754_infinity s => Inf s
  | S754_nan => NaN
  | S754_finite s m e =>
      let n := if (0 <=? e)%Z then (Zpos m * 2 ^ e)%Z else Zpos m in
      let d := if (0 <=? e)%Z then 1%Z else (2 ^ (- e))%Z in
      let '(digits, p) :=
        shortest 16 1 (S754_finite false m e) n d (magnitude n d) in
      Dec s digits p
  end.

(** [Math.round]: the nearest whole number, a tie going up; what rounds
    to zero keeps its sign. *)
Definition Math_round (x : number) : number :=
  match x with
  | S754_finite s m e =>
      if (0 <=? e)%Z then x
      else
        let d := (2 ^ (- e))%Z in
        integer s (if s then (- ((d - 2 * Zpos m) / (2 * d)))%Z
                   else ((2 * Zpos m + d) / (2 * d))%Z)
  | _ => x
  end.

(** [Math.floor] *)
Definition Math_floor (x : number) : number :=
  match x with
  | S754_finite s m e =>
      if (0 <=? e)%Z then x
      else
        let d := (2 ^ (- e))%Z in
        integer s (if s then (- ((- Zpos m) / d))%Z else (Zpos m / d)%Z)
  | _ => x
  end.

(** [BigInt(x)]: the whole number [x] is; [None] stands for the
    RangeError thrown when [x] is not a whole number (NaN, an infinity,
    a fraction). *)
Definition BigInt (x : number) : option Z :=
  match x with
  | S754_zero _ => Some 0%Z
  | S754_finite s m e =>
      let sign := if s then (-1)%Z else 1%Z in
      if (0 <=? e)%Z then Some (sign * (Zpos m * 2 ^ e))%Z
      else if (Zpos m mod 2 ^ (- e) =? 0)%Z
           then Some (sign * (Zpos m / 2 ^ (- e)))%Z
           else None
  | S754_infinity _ | S754_nan => None
  end.

End Double.

(** ** The ambient random source *)

Module Random.
Import Double.

(** The draws still to come; [Math.random()] hands out the first and
    leaves the rest. *)
Definition source := nat -> number.

Definition Math_random (s : source) : number * source :=
  (s 0, fun i => s (S i)).

(** The first [n] draws of a source, in the order they are taken. *)
Definition taken (n : nat) (s : source) : list number :=
  map s (seq 0 n).

(** A draw of [Math.random] is a double in [0, 1). *)
Definition in_unit (x : number) : Prop :=
  valid_binary prec emax x = true /\
  le (literal 0 0) x = true /\ lt x (literal 1 0) = true.

End Random.

(** ** The lodash functions the split uses *)

Module Lodash.
Import Double.

Section Times.
Context {State A : Type}.

Fixpoint times_loop (n : nat) (iteratee : State -> A * State) (s : State)
  : list A * State :=
  match n with
  | O => ([], s)
  | S n' =>
      let '(x, s1) := iteratee s in
      let '(xs, s2) := times_loop n' iteratee s1 in
      (x :: xs, s2)
  end.

(** [_.times(n, iteratee)]: [n < 1] yields the empty array, otherwise
    the iteratee is invoked [n] times, left to right. *)
Definition times (n : Z) (iteratee : State -> A * State) (s : State)
  : list A * State :=
  if (n <? 1)%Z then ([], s) else times_loop (Z.to_nat n) iteratee s.
End Times.

(** [_.sortBy(xs)]: a stable ascending sort.  An element stays in front
    of the elements that followed it unless it is greater ([value >
    other]), so equal values keep their order.  (Lodash moves NaN to the
    end; [Math.random] returns none.) *)
Fixpoint insert_sorted (x : number) (l : list number) : list number :=
  match l with
  | [] => [x]
  | y :: l' => if lt y x then y :: insert_sorted x l' else x :: y :: l'
  end.

Definition sortBy (l : list number) : list number := foldr insert_sorted [] l.

(** [+(pair[0] + 'e' + (+pair[1] + k))] for [pair = (toString(x) +
    'e').split('e')]: the text of [x] with its exponent moved by [k],
    read back as a number.  The text of an infinity or of NaN, so moved,
    is no number. *)
Definition scale (x : number) (k : Z) : number :=
  match to_decimal x with
  | Dec s digits e => from_decimal s digits (e + k)
  | Inf _ | NaN => S754_nan
  end.

(** [_.round(x, precision)]: for a finite [x] and a precision other than
    0, shift the decimal point, [Math.round], shift back; otherwise
    [Math.round].  (Lodash caps the precision at 292; the code passes
    2.) *)
Definition round (x : number) (precision : Z) : number :=
  if negb (precision =? 0)%Z && isFinite x
  then scale (Math_round (scale x precision)) (- precision)
  else Math_round x.

(** [_.sum(xs)]: [0] for the empty array, otherwise the entries added
    from the left. *)
Definition sum (l : list number) : number :=
  match l with
  | [] => literal 0 0
  | x :: l' => fold_left add l' x
  end.

End Lodash.

(** ** randomDistribute *)

Module Reward.
Import Double Random Lodash.

(** Lines 25-27: the sorted draws between the two end points. *)
Definition points (people : Z) (s : source) : list number * source :=
  let '(drawn, s') := times (people - 1) Math_random s in
  (literal 0 0 :: (sortBy drawn ++ [literal 1 0]), s').

(** Lines 29-32: the gap before each point but the first, scaled and
    rounded.  [index] runs over the positions of [points.slice(1)], one
    short of [points], so [points[index]] is always an element (past the
    end it would be [undefined], and the difference NaN). *)
Definition fractions (pts : list number) : list number :=
  imap (fun index point => sub point (nth index pts S754_nan)) (drop 1 pts).

Definition amounts (amount : number) (pts : list number) : list number :=
  (fun fraction => round (mul amount fraction) 2) <$> fractions pts.

(** Lines 34-37.  [amounts] always has an entry (one per gap, and the
    two end points alone make a gap), so [amounts.length - 1] is the
    index of its last entry. *)
Definition randomDistribute (amount : number) (people : Z) (s : source)
  : list number * source :=
  let '(pts, s') := points people s in
  let raw := amounts amount pts in
  let diff := round (sub amount (sum raw)) 2 in
  (alter (fun last => add last diff) (length raw - 1) raw, s').

(** The shares handed back to the caller. *)
Definition shares (amount : number) (people : Z) (s : source) : list number :=
  (randomDistribute amount people s).1.

End Reward.

(** ** The page buttons of PullRequestsTable *)

Module Pager.

Definition pageSize : Z := 10.

(** [Math.ceil((data?.pagination.totalCount || 0) / pageSize)] *)
Definition totalPages (totalCount : option Z) : Z :=
  (- ((- default 0 totalCount) / pageSize))%Z.

Inductive button := First | Prev | Next | Last.

(** The argument each button's [onClick] passes to [setPage]. *)
Definition onClick (totalPages : Z) (b : button) (page : Z) : Z :=
  match b with
  | First => 1
  | Prev => Z.max 1 (page - 1)
  | Next => Z.min totalPages (page + 1)
  | Last => totalPages
  end%Z.

Definition disabled (totalPages : Z) (b : button) (page : Z) : bool :=
  match b with
  | First | Prev => (page =? 1)%Z
  | Next | Last => (page =? totalPages)%Z
  end.

(** A click on a disabled button does nothing. *)
Definition click (totalPages : Z) (page : Z) (b : button) : Z :=
  if disabled totalPages b page then page else onClick totalPages b page.

Definition clicks (totalPages : Z) (page : Z) (bs : list button) : Z :=
  fold_left (click totalPages) bs page.

Definition in_range (totalPages page : Z) : Prop :=
  (1 <= page <= totalPages)%Z.

End Pager.

(** ** The rows PullRequestsTable asks for and shows *)

Module Listing.
Import Pager.

(** The window of the query: [offset: (page - 1) * pageSize],
    [limit: pageSize]. *)
Definition offset (page : Z) : Z := ((page - 1) * pageSize)%Z.
Definition limit : Z := pageSize.

(** [state: statusFilter === 'all' ? undefined : statusFilter] *)
Definition queryState (statusFilter : string) : option string :=
  if String.eqb statusFilter "all" then None else Some statusFilter.

(** The fields of a pull request the filter reads. *)
Record PullRequest := { title : string; state : string }.

(** [a.includes(b)]: [b] starts at some position of [a]. *)
Fixpoint includes (a b : string) : bool :=
  String.prefix b a
  || match a with
     | EmptyString => false
     | String _ a' => includes a' b
     end.

Section Filter.
(** [String.prototype.toLowerCase], left open. *)
Variable toLowerCase : string -> string.

Definition shown (searchTerm statusFilter : string) (pr : PullRequest) : bool :=
  includes (toLowerCase (title pr)) (toLowerCase searchTerm)
  && (String.eqb statusFilter "all" || String.eqb (state pr) statusFilter).

(** [data?.data.filter(...) || []] *)
Definition filteredData (data : option (list PullRequest))
    (searchTerm statusFilter : string) : list PullRequest :=
  match data with
  | Some rows => List.filter (shown searchTerm statusFilter) rows
  | None => []
  end.
End Filter.

End Listing.

(** ** The amount field of the reward form *)

Module Regex.

Inductive regex :=
| Empty
| Eps
| Chr (c : ascii)
| Range (lo hi : ascii)
| Cat (r1 r2 : regex)
| Alt (r1 r2 : regex)
| Star (r : regex).

(** [r?] and [r+] *)
Definition Opt (r : regex) : regex := Alt r Eps.
Definition Plus (r : regex) : regex := Cat r (Star r).

Definition in_range (lo hi c : ascii) : bool :=
  (N_of_ascii lo <=? N_of_ascii c)%N && (N_of_ascii c <=? N_of_ascii hi)%N.

Fixpoint nullable (r : regex) : bool :=
  match r with
  | Empty | Chr _ | Range _ _ => false
  | Eps | Star _ => true
  | Cat r1 r2 => nullable r1 && nullable r2
  | Alt r1 r2 => nullable r1 || nullable r2
  end.

(** What is left of [r] to match once [c] has been read. *)
Fixpoint deriv (c : ascii) (r : regex) : regex :=
  match r with
  | Empty | Eps => Empty
  | Chr c' => if Ascii.eqb c c' then Eps else Empty
  | Range lo hi => if in_range lo hi c then Eps else Empty
  | Cat r1 r2 =>
      if nullable r1
      then Alt (Cat (deriv c r1) r2) (deriv c r2)
      else Cat (deriv c r1) r2
  | Alt r1 r2 => Alt (deriv c r1) (deriv c r2)
  | Star r1 => Cat (deriv c r1) (Star r1)
  end.

Fixpoint matches_all (r : regex) (s : list ascii) : bool :=
  match s with
  | [] => nullable r
  | c :: s' => matches_all (deriv c r) s'
  end.

(** [/^r$/.test(s)] *)
Definition test (r : regex) (s : string) : bool :=
  matches_all r (String.list_ascii_of_string s).

End Regex.

Module Form.
Import Regex.

(** [\d] *)
Definition digit : regex := Range "0"%char "9"%char.

(** The pattern of [formSchema.amount], spaced out:
    [^ ( 0 | [1-9] \d* ) ( \. \d+ )? $] *)
Definition amount_regex : regex :=
  Cat (Alt (Chr "0"%char) (Cat (Range "1"%char "9"%char) (Star digit)))
      (Opt (Cat (Chr "."%char) (Plus digit))).

End Form.

(** ** The reward dialog *)

Module Dialog.
Import Double Random Lodash.

(** The fields of a user the dialog reads. *)
Record User := { username : option string; login : string }.

Record state := { amounts : list number; loading : bool; isOpen : bool }.

(** [useState(Array(users.length).fill(0.0))], [useState(false)] twice *)
Definition initial (users : list User) : state :=
  {| amounts := replicate (length users) (literal 0 0);
     loading := false; isOpen := false |}.

(** The amount input's [onChange]; [value] is [Number(newValue)]. *)
Definition onAmountChange (users : list User) (value : number)
    (st : state) (s : source) : state * source :=
  let '(a, s') := Reward.randomDistribute value (Z.of_nat (length users)) s in
  ({| amounts := a; loading := loading st; isOpen := isOpen st |}, s').

(** What the handlers do to the outside, in order. *)
Inductive variant := Default | Destructive.

Inductive event :=
| SetLoading (b : bool)
| SetOpen (b : bool)
| SwitchChain (chainId : Z)
| GetAllowance (address : string)
| ApproveAllowance (value : Z)
| CreateRedPacket (id : string) (githubIds : list string) (amountsInWei : list Z)
| PostGrantPeriodRewards (id : string)
| Toast (v : variant) (title description : string).

(** What a call can throw: an [Error] with its [name], or something else. *)
Inductive thrown := AnError (name : string) | NotAnError.

(** The answers of the wallet client and of the backend. *)
Record collaborators := {
  getAllowance : string -> thrown + Z;
  approveAllowance : Z -> thrown + unit;
  createRedPacket : string -> list string -> list Z -> thrown + unit;
  postGrantPeriodRewards : string -> thrown + unit }.

(** A computation logs its events and returns or throws. *)
Definition M (A : Type) : Type := list event * (thrown + A).

#[global] Instance M_ret : MRet M := fun A a => ([], inr a).

#[global] Instance M_bind : MBind M := fun A B k m =>
  match m with
  | (t, inl e) => (t, inl e)
  | (t, inr a) => let '(t', r) := k a in (t ++ t', r)
  end.

Definition emit (e : event) : M unit := ([e], inr tt).

(** An awaited call: logged, then its answer. *)
Definition call {A : Type} (e : event) (answer : thrown + A) : M A :=
  ([e], answer).

(** A step that logs nothing and returns or throws. *)
Definition step {A : Type} (outcome : thrown + A) : M A := ([], outcome).

(** [try { body } catch (error) { handler } finally { finalizer }] *)
Definition try_catch_finally (body : M unit) (handler : thrown -> M unit)
    (finalizer : M unit) : M unit :=
  let '(t1, r1) := body in
  let '(t2, r2) := match r1 with
                   | inl error => handler error
                   | inr _ => ([], inr tt)
                   end in
  let '(t3, r3) := finalizer in
  (t1 ++ t2 ++ t3, match r3 with inl e => inl e | inr _ => r2 end).

(** [ethers.parseEther] of a whole number of ether *)
Definition parseEther (ether : Z) : Z := (ether * 10 ^ 18)%Z.

(** [BigInt(Math.floor(amount * 1e18))]; [BigInt] throws a RangeError
    when the product is NaN or an infinity. *)
Definition toWei (amount : number) : thrown + Z :=
  match BigInt (Math_floor (mul amount (literal 1 18))) with
  | Some wei => inr wei
  | None => inl (AnError "RangeError")
  end.

(** [amounts.map(toWei)]: the first amount that throws ends the map. *)
Fixpoint allToWei (amounts : list number) : thrown + list Z :=
  match amounts with
  | [] => inr []
  | amount :: rest =>
      match toWei amount with
      | inl error => inl error
      | inr wei =>
          match allToWei rest with
          | inl error => inl error
          | inr weis => inr (wei :: weis)
          end
      end
  end.

(** [user.username || user.login]: a missing or empty username gives way
    to the login. *)
Definition githubId (user : User) : string :=
  match username user with
  | Some name => if String.eqb name "" then login user else name
  | None => login user
  end.

Definition onSubmit (w : collaborators) (id addressFrom : string)
    (users : list User) (st : state) : M unit :=
  emit (SetLoading true);;
  try_catch_finally
    (let githubIds := githubId <$> users in
     amountsInWei ← step (allToWei (amounts st));
     let totalAmount := foldl Z.add 0%Z amountsInWei in
     currentAllowance ← call (GetAllowance addressFrom) (getAllowance w addressFrom);
     (if (currentAllowance <? totalAmount)%Z
      then call (ApproveAllowance (parseEther 5000))
             (approveAllowance w (parseEther 5000))
      else mret tt);;
     call (CreateRedPacket id githubIds amountsInWei)
       (createRedPacket w id githubIds amountsInWei);;
     call (PostGrantPeriodRewards id) (postGrantPeriodRewards w id);;
     emit (SetOpen false);;
     emit (Toast Default "Success" "Reward Granted"))
    (fun error =>
       match error with
       | AnError name => emit (Toast Destructive "Error" name)
       | NotAnError => emit (Toast Destructive "Error" "An unknown error occurred")
       end)
    (emit (SetLoading false)).

(** [onOpenChange]; [paymentChainId] is [paymentChain.id]. *)
Definition onOpenChange (paymentChainId : Z) (open : bool) : M unit :=
  (if negb open then emit (SwitchChain paymentChainId) else mret tt);;
  emit (SetOpen open).

(** The state once the logged updates are applied. *)
Definition apply_event (st : state) (e : event) : state :=
  match e with
  | SetLoading b => {| amounts := amounts st; loading := b; isOpen := isOpen st |}
  | SetOpen b => {| amounts := amounts st; loading := loading st; isOpen := b |}
  | _ => st
  end.

Definition after (st : state) (m : M unit) : state :=
  foldl apply_event st m.1.

End Dialog.

(** ** Vocabulary of the statements *)

Import Double Random Lodash Reward.

(** The draws [randomDistribute] takes for [people] recipients. *)
Definition draws (people : Z) (s : source) : list number :=
  taken (Z.to_nat (people - 1)) s.

(** A source whose first draws are 0.75, 0.25, and 0.5 from then on. *)
Definition quarters : source :=
  fun i => match i with
           | O => literal 75 (-2)
           | S O => literal 25 (-2)
           | _ => literal 5 (-1)
           end.

(** A positive or a negative zero. *)
Definition is_zero (x : number) : Prop := exists s : bool, x = S754_zero s.

(** The dialog after the amount has been edited to each of [values] in
    turn. *)
Definition edited (users : list Dialog.User) (values : list number)
    (st : Dialog.state) (s : source) : Dialog.state * source :=
  foldl (fun '(st, s) value => Dialog.onAmountChange users value st s)
    (st, s) values.


(** A source whose every draw is 0.0875. *)
Definition lows : source := fun _ => literal 875 (-4).

(** [x <= y] holds. *)
Definition leR (x y : number) : Prop := le x y = true.

(** [x < 0] is false. *)
Definition not_negative (x : number) : Prop := lt x (literal 0 0) = false.


(** A zero or a finite double of sign [s]. *)
Definition settled (s : bool) (x : number) : Prop :=
  match x with
  | S754_zero s' | S754_finite s' _ _ => s' = s
  | S754_infinity _ | S754_nan => False
  end.

(** A zero or a finite double above zero. *)
Definition plain (x : number) : Prop :=
  match x with
  | S754_zero _ | S754_finite false _ _ => True
  | _ => False
  end.

(** A double the format allows. *)
Definition valid (x : number) : Prop := valid_binary prec emax x = true.

(** Where a plain double stands among the plain doubles. *)
Definition rank (x : number) : Z :=
  match x with
  | S754_finite false m e => (e + 1075) * 9007199254740992 + Zpos m
  | _ => 0
  end%Z.

(** A double of [0, 1]. *)
Definition unit_point (x : number) : Prop :=
  valid x /\ le (literal 0 0) x = true /\ le x (literal 1 0) = true.



(** What a logged call threw, if it is a call and it threw. *)
Definition failure (w : Dialog.collaborators) (e : Dialog.event)
  : option Dialog.thrown :=
  let thrown_by {A : Type} (answer : Dialog.thrown + A) :=
    match answer with inl error => Some error | inr _ => None end in
  match e with
  | Dialog.GetAllowance a => thrown_by (Dialog.getAllowance w a)
  | Dialog.ApproveAllowance v => thrown_by (Dialog.approveAllowance w v)
  | Dialog.CreateRedPacket i g a => thrown_by (Dialog.createRedPacket w i g a)
  | Dialog.PostGrantPeriodRewards i =>
      thrown_by (Dialog.postGrantPeriodRewards w i)
  | _ => None
  end.

Definition is_call (e : Dialog.event) : bool :=
  match e with
  | Dialog.GetAllowance _ | Dialog.ApproveAllowance _
  | Dialog.CreateRedPacket _ _ _ | Dialog.PostGrantPeriodRewards _ => true
  | _ => false
  end.

(** What the error toast says of a thrown value. *)
Definition description_of (error : Dialog.thrown) : string :=
  match error with
  | Dialog.AnError name => name
  | Dialog.NotAnError => "An unknown error occurred"
  end.

(** The strings a regular expression stands for. *)
Inductive matches : Regex.regex -> list ascii -> Prop :=
| matches_eps : matches Regex.Eps []
| matches_chr c : matches (Regex.Chr c) [c]
| matches_range lo hi c :
    Regex.in_range lo hi c = true -> matches (Regex.Range lo hi) [c]
| matches_cat r1 r2 s1 s2 :
    matches r1 s1 -> matches r2 s2 -> matches (Regex.Cat r1 r2) (s1 ++ s2)
| matches_alt_l r1 r2 s : matches r1 s -> matches (Regex.Alt r1 r2) s
| matches_alt_r r1 r2 s : matches r2 s -> matches (Regex.Alt r1 r2) s
| matches_star_nil r : matches (Regex.Star r) []
| matches_star_cons r s1 s2 :
    matches r s1 -> matches (Regex.Star r) s2 ->
    matches (Regex.Star r) (s1 ++ s2).

Definition is_digit (c : ascii) : Prop :=
  (N_of_ascii "0" <= N_of_ascii c <= N_of_ascii "9")%N.

Definition is_nonzero_digit (c : ascii) : Prop :=
  (N_of_ascii "1" <= N_of_ascii c <= N_of_ascii "9")%N.

(** A decimal numeral: a whole part that is 0 or starts with a digit
    other than 0, then possibly a point followed by at least one digit. *)
Definition is_numeral (s : list ascii) : Prop :=
  exists whole fraction : list ascii,
    s = whole ++ fraction /\
    (whole = ["0"%char] \/
     exists d ds, whole = d :: ds /\ is_nonzero_digit d /\ Forall is_digit ds) /\
    (fraction = [] \/
     exists d ds,
       fraction = "."%char :: d :: ds /\ is_digit d /\ Forall is_digit ds).

(** * Facts about doubles *)

(** The arithmetic on some numbers: 0.1 + 0.2 as [_.sum] adds them,
    0.3 * 0.75, 0.125 - 0.13, and what [_.round] makes of 1.005, of
    0.125 and of -0.0050000000000000044. *)
Lemma doubles_by_example :
  sum [literal 1 (-1); literal 2 (-1)] = literal 30000000000000004 (-17) /\
  mul (literal 3 (-1)) (literal 75 (-2)) = literal 22499999999999998 (-17) /\
  sub (literal 125 (-3)) (literal 13 (-2))
  = literal (-50000000000000044) (-19) /\
  round (literal 1005 (-3)) 2 = literal 101 (-2) /\
  round (literal 125 (-3)) 2 = literal 13 (-2) /\
  round (literal (-50000000000000044) (-19)) 2 = literal (-1) (-2) /\
  to_decimal (literal 1 21) = Dec false 1 21 /\
  to_decimal (add (literal 3 (-2)) (literal (-1) (-2)))
  = Dec false 19999999999999997 (-18).
Proof. repeat split; vm_compute; reflexivity. Qed.

Section Bits.
Local Open Scope Z_scope.

Lemma digits2_size (p : positive) : digits2_pos p = Pos.size p.
Proof. induction p; simpl; congruence. Qed.

Lemma Zdigits2_log2 (m : Z) : 0 < m -> Zdigits2 m = Z.log2 m + 1.
Proof.
  destruct m as [|p|p]; try lia. intros _. simpl.
  rewrite digits2_size. destruct p; simpl; lia.
Qed.

Lemma Zdigits2_nonneg (m : Z) : 0 <= Zdigits2 m.
Proof. destruct m; simpl; lia. Qed.

Lemma Zdigits2_mono (a b : Z) : 0 < a <= b -> Zdigits2 a <= Zdigits2 b.
Proof.
  intros H. rewrite !Zdigits2_log2 by lia.
  pose proof (Z.log2_le_mono a b). lia.
Qed.

Lemma Zdigits2_succ (m : Z) : 0 <= m -> Zdigits2 (m + 1) <= Zdigits2 m + 1.
Proof.
  intros H. destruct (Z.eq_dec m 0) as [-> | Hm]; [simpl; lia |].
  rewrite !Zdigits2_log2 by lia.
  pose proof (Z.log2_succ_le m). unfold Z.succ in *. lia.
Qed.

Lemma Zdigits2_shiftr (m k : Z) :
  0 <= m -> 0 <= k -> Zdigits2 (Z.shiftr m k) + k <= Z.max (Zdigits2 m) k.
Proof.
  intros Hm Hk.
  pose proof (Z.shiftr_nonneg m k) as Hs.
  destruct (Z.eq_dec (Z.shiftr m k) 0) as [-> | Hne]; [simpl; lia |].
  assert (0 < m) as Hpos.
  { destruct (Z.eq_dec m 0) as [-> | ?]; [| lia].
    rewrite Z.shiftr_0_l in Hne. lia. }
  rewrite (Zdigits2_log2 (Z.shiftr m k)), (Zdigits2_log2 m) by lia.
  rewrite Z.log2_shiftr by lia.
  destruct (Z_lt_le_dec (Z.log2 m) k) as [Hlt | Hge].
  - rewrite (Z.shiftr_eq_0 m k) in Hne by lia. lia.
  - lia.
Qed.

Lemma digits_below (p : positive) (d : Z) :
  Zpos (digits2_pos p) <= d -> Zpos p < 2 ^ d.
Proof.
  intros H. rewrite digits2_size in H.
  pose proof (Pos.size_gt p) as Hgt.
  apply Pos2Z.pos_lt_pos in Hgt. rewrite Pos2Z.inj_pow in Hgt.
  eapply Z.lt_le_trans; [exact Hgt |].
  apply Z.pow_le_mono_r; lia.
Qed.

Lemma digits_above (p : positive) (d : Z) :
  0 < d -> d <= Zpos (digits2_pos p) -> 2 ^ (d - 1) <= Zpos p.
Proof.
  intros Hd H. rewrite digits2_size in H.
  pose proof (Pos.size_le p) as Hle.
  apply Pos2Z.pos_le_pos in Hle. rewrite Pos2Z.inj_pow in Hle.
  assert (2 ^ Zpos (Pos.size p) = 2 * 2 ^ (Zpos (Pos.size p) - 1)) as E.
  { rewrite <- Z.pow_succ_r by lia. f_equal. lia. }
  rewrite E in Hle.
  assert (2 ^ (d - 1) <= 2 ^ (Zpos (Pos.size p) - 1))
    by (apply Z.pow_le_mono_r; lia).
  lia.
Qed.

Lemma iter_xO (m d : positive) :
  Zpos (Pos.iter xO m d) = Zpos m * 2 ^ Zpos d.
Proof.
  induction d as [|d IH] using Pos.peano_ind.
  - simpl. lia.
  - rewrite Pos.iter_succ, Pos2Z.inj_xO, IH, Pos2Z.inj_succ, Z.pow_succ_r by lia.
    lia.
Qed.

(** Aligning a mantissa to a lower exponent keeps the value. *)
Lemma shl_align_value (m : positive) (e e' : Z) :
  e' <= e ->
  Zpos (fst (shl_align m e e')) = Zpos m * 2 ^ (e - e') /\
  snd (shl_align m e e') = e'.
Proof.
  intros H. unfold shl_align.
  destruct (e' - e) as [|p|p] eqn:E; simpl; try lia.
  - replace (e - e') with 0 by lia. split; lia.
  - rewrite iter_xO. replace (e - e') with (Zpos p) by lia. tauto.
Qed.

Lemma shl_align_above (m : positive) (e e' : Z) :
  e <= e' -> shl_align m e e' = (m, e).
Proof.
  intros H. unfold shl_align.
  destruct (e' - e) as [|p|p] eqn:E; simpl; try lia; reflexivity.
Qed.

End Bits.

Section Rounding.
Local Open Scope Z_scope.


Lemma shr_1_m (mrs : shr_record) :
  0 <= shr_m mrs -> shr_m (shr_1 mrs) = Z.div2 (shr_m mrs).
Proof.
  destruct mrs as [m r t]. simpl. intros H.
  destruct m as [|[p|p|]|p]; try reflexivity; lia.
Qed.

Lemma iter_shr_1_m (p : positive) (mrs : shr_record) :
  0 <= shr_m mrs ->
  shr_m (SpecFloat.iter_pos shr_1 p mrs) = Z.shiftr (shr_m mrs) (Zpos p).
Proof.
  assert (forall mrs, 0 <= shr_m mrs -> 0 <= shr_m (shr_1 mrs)) as Hpos.
  { intros x Hx. rewrite shr_1_m by assumption.
    rewrite Z.div2_div. apply Z.div_pos; lia. }
  revert mrs. induction p as [p IH | p IH |]; intros mrs H; simpl.
  - rewrite !IH, shr_1_m; try assumption.
    + rewrite Z.div2_spec, !Z.shiftr_shiftr by lia. f_equal. lia.
    + rewrite shr_1_m by assumption. rewrite Z.div2_spec.
      apply Z.shiftr_nonneg. assumption.
    + rewrite IH by auto. apply Z.shiftr_nonneg. auto.
  - rewrite !IH; try assumption.
    + rewrite Z.shiftr_shiftr by lia. f_equal. lia.
    + rewrite IH by assumption. apply Z.shiftr_nonneg. assumption.
  - rewrite shr_1_m by assumption. apply Z.div2_spec.
Qed.

Lemma shr_record_of_loc_m (m : Z) (l : location) :
  shr_m (shr_record_of_loc m l) = m.
Proof. destruct l as [|[]]; reflexivity. Qed.

(** What [shr_fexp] leaves: the mantissa shifted down to the exponent the
    format asks for. *)
Lemma shr_fexp_spec (m e : Z) (l : location) :
  0 <= m ->
  let r := shr_fexp prec emax m e l in
  let e' := Z.max e (fexp prec emax (Zdigits2 m + e)) in
  snd r = e' /\ shr_m (fst r) = Z.shiftr m (e' - e).
Proof.
  intros Hm. unfold shr_fexp, shr. cbv zeta.
  destruct (fexp prec emax (Zdigits2 m + e) - e) as [|p|p] eqn:E; simpl.
  - replace (Z.max e _) with e by lia.
    rewrite Z.sub_diag, Z.shiftr_0_r. split; [reflexivity | apply shr_record_of_loc_m].
  - replace (Z.max e _) with (e + Zpos p) by lia.
    split; [reflexivity |].
    rewrite iter_shr_1_m by (rewrite shr_record_of_loc_m; exact Hm).
    rewrite shr_record_of_loc_m. f_equal. lia.
  - replace (Z.max e _) with e by lia.
    rewrite Z.sub_diag, Z.shiftr_0_r. split; [reflexivity | apply shr_record_of_loc_m].
Qed.

Lemma round_nearest_even_range (m : Z) (l : location) :
  round_nearest_even m l = m \/ round_nearest_even m l = m + 1.
Proof.
  destruct l as [|[]]; simpl; auto. destruct (Z.even m); auto.
Qed.

(** A mantissa that is not too long rounds to a zero or to a finite
    double, never to an infinity. *)
Lemma binary_round_aux_settled (s : bool) (m e : Z) (l : location) :
  0 <= m -> e <= 971 -> Zdigits2 m + e <= 1023 ->
  settled s (binary_round_aux prec emax s m e l).
Proof.
  intros Hm He Hd. unfold binary_round_aux.
  pose proof (shr_fexp_spec m e l Hm) as H1. cbv zeta in H1.
  destruct (shr_fexp prec emax m e l) as [mrs' e']. simpl in H1.
  destruct H1 as [He' Hm']. rewrite <- He' in Hm'.
  set (m1 := round_nearest_even (shr_m mrs') (loc_of_shr_record mrs')).
  assert (0 <= shr_m mrs') as Hpos'
    by (rewrite Hm'; apply Z.shiftr_nonneg; exact Hm).
  assert (0 <= m1 <= shr_m mrs' + 1) as Hm1.
  { subst m1.
    destruct (round_nearest_even_range (shr_m mrs') (loc_of_shr_record mrs'))
      as [-> | ->]; lia. }
  pose proof (shr_fexp_spec m1 e' loc_Exact (proj1 Hm1)) as H2. cbv zeta in H2.
  destruct (shr_fexp prec emax m1 e' loc_Exact) as [mrs'' e'']. simpl in H2.
  destruct H2 as [He'' Hm'']. rewrite <- He'' in Hm''.
  assert (0 <= shr_m mrs'') as Hpos''
    by (rewrite Hm''; apply Z.shiftr_nonneg; lia).
  assert (e <= e') as Hee by lia.
  pose proof (Zdigits2_shiftr m (e' - e) Hm ltac:(lia)) as Hs.
  rewrite <- Hm' in Hs.
  assert (Zdigits2 m1 <= Zdigits2 (shr_m mrs') + 1) as Hd1.
  { destruct (Z.eq_dec m1 0) as [-> | Hne].
    - pose proof (Zdigits2_nonneg (shr_m mrs')). simpl. lia.
    - pose proof (Zdigits2_mono m1 (shr_m mrs' + 1) ltac:(lia)).
      pose proof (Zdigits2_succ (shr_m mrs') Hpos'). lia. }
  pose proof (Zdigits2_nonneg m) as Hn.
  unfold fexp, emin, prec, emax in *.
  destruct (shr_m mrs'') as [|p|p]; simpl; [reflexivity | | lia].
  destruct (Z.leb_spec e'' (1024 - 53)); [reflexivity | lia].
Qed.

Lemma binary_round_settled (s : bool) (m : positive) (e : Z) :
  e <= 971 -> Zpos (digits2_pos m) + e <= 1023 ->
  settled s (binary_round prec emax s m e).
Proof.
  intros He Hd. unfold binary_round.
  set (e' := fexp prec emax (Zpos (digits2_pos m) + e)).
  destruct (Z_le_gt_dec e e') as [Hle | Hgt].
  - rewrite shl_align_above by exact Hle.
    apply binary_round_aux_settled; simpl; lia.
  - pose proof (shl_align_value m e e' ltac:(lia)) as [Hv He'].
    destruct (shl_align m e e') as [mz ez]. cbn [fst snd] in Hv, He'. subst ez.
    apply binary_round_aux_settled; [lia | lia |].
    rewrite Zdigits2_log2, Hv, Z.log2_mul_pow2 by lia.
    pose proof (Zdigits2_log2 (Zpos m) ltac:(lia)) as Hl.
    change (Zdigits2 (Zpos m)) with (Zpos (digits2_pos m)) in Hl. lia.
Qed.

Lemma binary_normalize_settled (m e : Z) :
  0 <= m -> e <= 971 -> Zdigits2 m + e <= 1023 ->
  settled false (binary_normalize prec emax m e false).
Proof.
  intros Hm He Hd. destruct m as [|p|p]; simpl in *; [reflexivity | | lia].
  now apply binary_round_settled.
Qed.

End Rounding.

Section Order.
Local Open Scope Z_scope.

Lemma one_eq : literal 1 0 = S754_finite false 4503599627370496 (-52).
Proof. reflexivity. Qed.

Lemma zero_eq : literal 0 0 = S754_zero false.
Proof. reflexivity. Qed.

Lemma valid_finite (s : bool) (m : positive) (e : Z) :
  valid (S754_finite s m e) ->
  -1074 <= e <= 971 /\ Zpos (digits2_pos m) <= 53 /\
  (-1074 < e -> Zpos (digits2_pos m) = 53).
Proof.
  unfold valid, valid_binary, bounded, canonical_mantissa, fexp, emin, prec, emax.
  rewrite andb_true_iff, Z.eqb_eq, Z.leb_le. lia.
Qed.

Lemma valid_mantissa (s : bool) (m : positive) (e : Z) :
  valid (S754_finite s m e) ->
  Zpos m < 9007199254740992 /\ (-1074 < e -> 4503599627370496 <= Zpos m).
Proof.
  intros H. apply valid_finite in H as (He & Hd & Hn). split.
  - exact (digits_below m 53 Hd).
  - intros H. apply (digits_above m 53); lia.
Qed.

Lemma rank_finite (m : positive) (e : Z) :
  valid (S754_finite false m e) -> 0 < rank (S754_finite false m e).
Proof. intros H. apply valid_finite in H. simpl. lia. Qed.

(** On plain valid doubles [<=] and [<] compare the ranks. *)
Lemma le_rank (x y : number) :
  plain x -> valid x -> plain y -> valid y ->
  (le x y = true <-> rank x <= rank y) /\ (lt x y = true <-> rank x < rank y).
Proof.
  intros Px Vx Py Vy.
  destruct x as [sx | | | [] mx ex], y as [sy | | | [] my ey];
    try contradiction; unfold le, lt, SFleb, SFltb; cbn [SFcompare].
  - simpl. split; split; (lia || discriminate || reflexivity).
  - pose proof (rank_finite my ey Vy). cbn [rank] in *.
    split; split; (lia || reflexivity).
  - pose proof (rank_finite mx ex Vx). cbn [rank] in *.
    split; split; (lia || discriminate).
  - pose proof (valid_mantissa _ _ _ Vx) as [Hx _].
    pose proof (valid_mantissa _ _ _ Vy) as [Hy _].
    cbn [rank]. change (Pos.compare_cont Eq mx my) with (Pos.compare mx my).
    destruct (Z.compare_spec ex ey) as [-> | Hlt | Hgt].
    + destruct (Pos.compare_spec mx my) as [-> | H | H];
        split; split; (lia || discriminate || reflexivity).
    + split; split; (lia || reflexivity).
    + split; split; (lia || discriminate).
Qed.

Lemma unit_point_plain (x : number) : unit_point x -> plain x /\ valid x.
Proof.
  intros (V & H0 & H1). split; [| exact V].
  destruct x as [s | [] | | [] m e]; simpl; try exact I; discriminate.
Qed.

Lemma unit_point_rank (x : number) :
  unit_point x -> rank x <= rank (literal 1 0).
Proof.
  intros H. pose proof (unit_point_plain x H) as [P V].
  destruct H as (_ & _ & H1).
  now apply (le_rank x (literal 1 0) P V I eq_refl).
Qed.

Lemma in_unit_point (x : number) : in_unit x -> unit_point x.
Proof.
  intros (V & H0 & H1). split; [exact V |]. split; [exact H0 |].
  unfold lt, le, SFltb, SFleb in *.
  destruct (SFcompare x (literal 1 0)) as [[]|]; (reflexivity || discriminate).
Qed.

Lemma unit_point_zero : unit_point (literal 0 0).
Proof. repeat split. Qed.

Lemma unit_point_one : unit_point (literal 1 0).
Proof. repeat split. Qed.

(** The gap between two points of [0, 1], the smaller taken from the
    greater, is a zero or a finite double above zero. *)
Lemma gap_plain (x y : number) :
  unit_point x -> unit_point y -> le x y = true -> plain (sub y x).
Proof.
  intros Ux Uy Hle.
  pose proof (unit_point_plain x Ux) as [Px Vx].
  pose proof (unit_point_plain y Uy) as [Py Vy].
  pose proof (unit_point_rank y Uy) as Hy1.
  apply (le_rank x y Px Vx Py Vy) in Hle.
  destruct x as [sx | | | [] mx ex], y as [sy | | | [] my ey];
    try contradiction.
  - destruct sx, sy; exact I.
  - exact I.
  - pose proof (rank_finite mx ex Vx). cbn [rank] in *. lia.
  - pose proof (valid_finite _ _ _ Vx) as (Hex & Hdx & Hnx).
    pose proof (valid_finite _ _ _ Vy) as (Hey & Hdy & Hny).
    pose proof (valid_mantissa _ _ _ Vx) as [Hmx _].
    pose proof (valid_mantissa _ _ _ Vy) as [Hmy Hny'].
    rewrite one_eq in Hy1. cbn [rank] in Hle, Hy1.
    assert (ex <= ey) as Hee by nia.
    assert (ey <= -52) as Hey1 by nia.
    unfold sub, SFsub. cbv zeta. rewrite (Z.min_r ey ex) by exact Hee.
    rewrite (shl_align_above mx ex ex) by lia.
    pose proof (shl_align_value my ey ex Hee) as [Hv _].
    cbn [cond_Zopp fst]. cbn [fst] in Hv.
    set (A := Zpos (fst (shl_align my ey ex))) in *.
    assert (Zpos mx <= A) as HA.
    { destruct (Z.eq_dec ex ey) as [-> | Hne].
      - rewrite Hv, Z.sub_diag. nia.
      - specialize (Hny' ltac:(lia)).
        assert (2 ^ 1 <= 2 ^ (ey - ex)) by (apply Z.pow_le_mono_r; lia).
        rewrite Hv. nia. }
    assert (Zdigits2 A + ex <= 1) as HdA.
    { rewrite Zdigits2_log2 by (subst A; lia).
      rewrite Hv, Z.log2_mul_pow2 by lia.
      pose proof (Zdigits2_log2 (Zpos my) ltac:(lia)) as Hl.
      change (Zdigits2 (Zpos my)) with (Zpos (digits2_pos my)) in Hl. lia. }
    pose proof (binary_normalize_settled (A - Zpos mx) ex ltac:(lia) ltac:(lia))
      as Hs.
    assert (Zdigits2 (A - Zpos mx) + ex <= 1023) as Hd.
    { destruct (Z.eq_dec (A - Zpos mx) 0) as [-> | Hne]; [simpl; lia |].
      pose proof (Zdigits2_mono (A - Zpos mx) A ltac:(lia)). lia. }
    specialize (Hs Hd).
    destruct (binary_normalize prec emax (A - Zpos mx) ex false)
      as [s | | | [] m e]; simpl in Hs; try contradiction; try discriminate;
      exact I.
Qed.

End Order.

Section Signs.


Lemma not_negative_zero (s : bool) : not_negative (S754_zero s).
Proof. reflexivity. Qed.










Lemma scale_zero (s : bool) (k : Z) : scale (S754_zero s) k = S754_zero s.
Proof. reflexivity. Qed.

(** Rounding a zero gives that zero. *)
Lemma round_zero (s : bool) (precision : Z) :
  round (S754_zero s) precision = S754_zero s.
Proof.
  unfold round. destruct (negb (precision =? 0)%Z && _); reflexivity.
Qed.



Lemma mul_zero (x g : number) : is_zero x -> plain g -> is_zero (mul x g).
Proof.
  intros [s ->]. destruct g as [sg | | | [] m e]; simpl; try contradiction;
    intros _; eexists; reflexivity.
Qed.

Lemma add_zero (x y : number) : is_zero x -> is_zero y -> is_zero (add x y).
Proof. intros [[] ->] [[] ->]; eexists; reflexivity. Qed.

Lemma sub_zero (x y : number) : is_zero x -> is_zero y -> is_zero (sub x y).
Proof. intros [[] ->] [[] ->]; eexists; reflexivity. Qed.

Lemma round_is_zero (x : number) (precision : Z) :
  is_zero x -> is_zero (round x precision).
Proof. intros [s ->]. rewrite round_zero. now exists s. Qed.

Lemma sum_zero (l : list number) : Forall is_zero l -> is_zero (sum l).
Proof.
  destruct 1 as [|x l Hx Hl]; simpl; [now exists false |].
  revert x Hx. induction Hl as [|y l Hy _ IH]; intros x Hx; simpl; [exact Hx |].
  apply IH. now apply add_zero.
Qed.

End Signs.

Section Drawing.

Lemma taken_S (n : nat) (s : source) :
  taken (S n) s = s 0 :: taken n (fun i => s (S i)).
Proof.
  unfold taken. simpl. f_equal.
  rewrite <- seq_shift, map_map. reflexivity.
Qed.

(** [n] calls of [Math.random] return the first [n] draws of the
    source. *)
Lemma times_loop_random (n : nat) (s : source) :
  (times_loop n Math_random s).1 = taken n s.
Proof.
  revert s. induction n as [|n IH]; intros s; [reflexivity |].
  rewrite taken_S. simpl.
  specialize (IH (fun i => s (S i))).
  destruct (times_loop n Math_random (fun i => s (S i))) as [xs s2].
  simpl in *. now rewrite IH.
Qed.

Lemma times_random (n : Z) (s : source) :
  (times n Math_random s).1 = taken (Z.to_nat n) s.
Proof.
  unfold times. destruct (Z.ltb_spec n 1) as [Hn | Hn].
  - replace (Z.to_nat n) with 0 by lia. reflexivity.
  - apply times_loop_random.
Qed.

Lemma length_taken (n : nat) (s : source) : length (taken n s) = n.
Proof. unfold taken. now rewrite length_map, length_seq. Qed.

Lemma times_loop_rest (n : nat) (s : source) (i : nat) :
  (times_loop n Math_random s).2 i = s (n + i)%nat.
Proof.
  revert s. induction n as [|n IH]; intros s; [reflexivity |].
  simpl. specialize (IH (fun j => s (S j))).
  destruct (times_loop n Math_random (fun j => s (S j))) as [xs s2].
  exact IH.
Qed.

Lemma taken_agree (n : nat) (s1 s2 : source) :
  (forall i, (i < n)%nat -> s1 i = s2 i) -> taken n s1 = taken n s2.
Proof.
  intros H. unfold taken. apply map_ext_in.
  intros i Hi. apply in_seq in Hi. apply H. lia.
Qed.

End Drawing.

Section Sorting.

Lemma insert_sorted_perm (x : number) (l : list number) :
  Permutation (insert_sorted x l) (x :: l).
Proof.
  induction l as [|y l IH]; simpl; [reflexivity |].
  destruct (lt y x); [| reflexivity].
  rewrite IH. apply perm_swap.
Qed.

Lemma sortBy_perm (l : list number) : Permutation (sortBy l) l.
Proof.
  induction l as [|x l IH]; simpl; [reflexivity |].
  rewrite insert_sorted_perm. now constructor.
Qed.

Lemma length_sortBy (l : list number) : length (sortBy l) = length l.
Proof. apply Permutation_length, sortBy_perm. Qed.

Lemma leR_trans (x y z : number) :
  unit_point x -> unit_point y -> unit_point z ->
  leR x y -> leR y z -> leR x z.
Proof.
  intros Ux Uy Uz. unfold leR.
  destruct (unit_point_plain x Ux) as [Px Vx].
  destruct (unit_point_plain y Uy) as [Py Vy].
  destruct (unit_point_plain z Uz) as [Pz Vz].
  rewrite (proj1 (le_rank x y Px Vx Py Vy)), (proj1 (le_rank y z Py Vy Pz Vz)),
    (proj1 (le_rank x z Px Vx Pz Vz)). lia.
Qed.

Lemma insert_sorted_sorted (x : number) (l : list number) :
  unit_point x -> Forall unit_point l ->
  StronglySorted leR l -> StronglySorted leR (insert_sorted x l).
Proof.
  intros Ux Ul Hs.
  induction Hs as [|y l Hl IH Hy]; simpl.
  - repeat constructor.
  - apply Forall_cons in Ul as [Uy Ul].
    destruct (unit_point_plain x Ux) as [Px Vx].
    destruct (unit_point_plain y Uy) as [Py Vy].
    destruct (lt y x) eqn:E;
      pose proof (le_rank y x Py Vy Px Vx) as [Hle Hlt];
      pose proof (le_rank x y Px Vx Py Vy) as [Hle' _].
    + constructor; [now apply IH |].
      rewrite insert_sorted_perm. constructor; [| exact Hy].
      apply Hle. apply Hlt in E. lia.
    + assert (leR x y) as Hxy.
      { apply Hle'. destruct (Z_lt_le_dec (rank y) (rank x)) as [H | H];
          [| exact H]. apply Hlt in H. congruence. }
      constructor; [now constructor |].
      constructor; [exact Hxy |].
      rewrite Forall_forall in Hy, Ul. apply Forall_forall.
      intros z Hz. apply (leR_trans x y z); auto.
Qed.

Lemma sortBy_unit (l : list number) :
  Forall unit_point l -> Forall unit_point (sortBy l).
Proof. intros H. now rewrite sortBy_perm. Qed.

Lemma sortBy_sorted (l : list number) :
  Forall unit_point l -> StronglySorted leR (sortBy l).
Proof.
  induction 1 as [|x l Hx Hl IH]; simpl; [constructor |].
  apply insert_sorted_sorted; [exact Hx | now apply sortBy_unit | exact IH].
Qed.

End Sorting.

(** * Facts about the stages of randomDistribute *)

Section Splitting.

Lemma sorted_lookup_lt (l : list number) (i j : nat) (x y : number) :
  StronglySorted leR l ->
  l !! i = Some x -> l !! j = Some y -> (i < j)%nat -> leR x y.
Proof.
  intros Hl. revert i j.
  induction Hl as [|a l Hl IH Ha]; intros i j Hi Hj Hij; [easy |].
  destruct i as [|i], j as [|j]; simpl in *; try lia.
  - injection Hi as <-. exact (Forall_lookup_1 _ _ _ _ Ha Hj).
  - apply (IH i j); [assumption .. | lia].
Qed.

Lemma points_fst (people : Z) (s : source) :
  (points people s).1
  = literal 0 0 :: sortBy (draws people s) ++ [literal 1 0].
Proof.
  unfold points, draws. rewrite <- times_random.
  now destruct (times (people - 1) Math_random s).
Qed.

Lemma length_points (people : Z) (s : source) :
  length (points people s).1 = S (S (Z.to_nat (people - 1))).
Proof.
  rewrite points_fst. cbn [length]. rewrite length_app, length_sortBy.
  unfold draws. rewrite length_taken. simpl. lia.
Qed.

Lemma points_unit (people : Z) (s : source) :
  Forall in_unit (draws people s) ->
  Forall unit_point (points people s).1.
Proof.
  intros Hu. rewrite points_fst.
  constructor; [exact unit_point_zero |].
  apply Forall_app_2; [| repeat constructor; exact unit_point_one].
  apply sortBy_unit. eapply Forall_impl; [exact Hu | exact in_unit_point].
Qed.

(** With every draw in [0, 1) the points climb from 0 to 1. *)
Lemma points_sorted (people : Z) (s : source) :
  Forall in_unit (draws people s) ->
  StronglySorted leR (points people s).1.
Proof.
  intros Hu.
  assert (Forall unit_point (draws people s)) as Hd
    by (eapply Forall_impl; [exact Hu | exact in_unit_point]).
  pose proof (sortBy_unit _ Hd) as Hs.
  rewrite points_fst. constructor.
  - apply StronglySorted_app_2.
    + intros x1 x2 H1 H2. apply list_elem_of_singleton in H2 as ->.
      rewrite Forall_forall in Hs. exact (proj2 (proj2 (Hs x1 H1))).
    + now apply sortBy_sorted.
    + repeat constructor.
  - apply Forall_app_2; [| repeat constructor].
    eapply Forall_impl; [exact Hs |].
    intros x (_ & H0 & _). exact H0.
Qed.

Lemma length_fractions (pts : list number) :
  length (fractions pts) = (length pts - 1)%nat.
Proof. unfold fractions. now rewrite length_imap, length_drop. Qed.

(** The [i]-th fraction is the gap between points [i] and [i + 1]. *)
Lemma fractions_lookup (pts : list number) (i : nat) :
  (S i < length pts)%nat ->
  fractions pts !! i
  = Some (sub (nth (S i) pts S754_nan) (nth i pts S754_nan)).
Proof.
  intros Hi. unfold fractions.
  rewrite list_lookup_imap, lookup_drop. simpl.
  destruct (lookup_lt_is_Some_2 pts (S i) Hi) as [x Hx].
  rewrite Hx. simpl. now rewrite (nth_lookup_Some _ _ _ _ Hx).
Qed.

Lemma length_amounts (amount : number) (pts : list number) :
  length (amounts amount pts) = (length pts - 1)%nat.
Proof. unfold amounts. now rewrite length_fmap, length_fractions. Qed.

Lemma amounts_lookup (amount : number) (pts : list number) (i : nat) :
  (S i < length pts)%nat ->
  amounts amount pts !! i
  = Some (round (mul amount
                   (sub (nth (S i) pts S754_nan) (nth i pts S754_nan))) 2).
Proof.
  intros Hi. unfold amounts.
  now rewrite list_lookup_fmap, fractions_lookup.
Qed.

(** Between sorted points of [0, 1] every gap is a zero or a finite
    double above zero. *)
Lemma fractions_plain (pts : list number) :
  Forall unit_point pts -> StronglySorted leR pts ->
  Forall plain (fractions pts).
Proof.
  intros Hu Hs. apply Forall_lookup_2. intros i g Hg.
  assert (S i < length pts)%nat as Hi.
  { apply lookup_lt_Some in Hg. rewrite length_fractions in Hg. lia. }
  rewrite fractions_lookup in Hg by exact Hi. injection Hg as <-.
  destruct (lookup_lt_is_Some_2 pts i) as [a Ha]; [lia |].
  destruct (lookup_lt_is_Some_2 pts (S i) Hi) as [b Hb].
  rewrite (nth_lookup_Some _ _ _ _ Ha), (nth_lookup_Some _ _ _ _ Hb).
  apply gap_plain.
  - exact (Forall_lookup_1 _ _ _ _ Hu Ha).
  - exact (Forall_lookup_1 _ _ _ _ Hu Hb).
  - exact (sorted_lookup_lt pts i (S i) a b Hs Ha Hb ltac:(lia)).
Qed.


Lemma amounts_zero (amount : number) (pts : list number) :
  is_zero amount -> Forall plain (fractions pts) ->
  Forall is_zero (amounts amount pts).
Proof.
  intros Ha Hg. unfold amounts. apply Forall_fmap.
  eapply Forall_impl; [exact Hg |]. intros g Pg. simpl.
  now apply round_is_zero, mul_zero.
Qed.

Lemma shares_eq (amount : number) (people : Z) (s : source) :
  shares amount people s
  = alter (fun last =>
             add last
               (round (sub amount (sum (amounts amount (points people s).1))) 2))
      (length (amounts amount (points people s).1) - 1)%nat
      (amounts amount (points people s).1).
Proof.
  unfold shares, randomDistribute.
  now destruct (points people s).
Qed.

Lemma length_raw (amount : number) (people : Z) (s : source) :
  length (amounts amount (points people s).1) = S (Z.to_nat (people - 1)).
Proof. rewrite length_amounts, length_points. lia. Qed.

Lemma length_shares (amount : number) (people : Z) (s : source) :
  length (shares amount people s) = S (Z.to_nat (people - 1)).
Proof. rewrite shares_eq, length_alter. apply length_raw. Qed.

(** With at most one recipient nothing is drawn and the only points
    are the two ends. *)
Lemma points_single (people : Z) (s : source) :
  (people <= 1)%Z -> points people s = ([literal 0 0; literal 1 0], s).
Proof.
  intros Hp. unfold points, times.
  destruct (Z.ltb_spec (people - 1) 1) as [_ | H]; [reflexivity | lia].
Qed.

Lemma randomDistribute_single (amount : number) (people : Z) (s : source) :
  (people <= 1)%Z ->
  randomDistribute amount people s
  = (alter (fun last =>
              add last
                (round (sub amount
                          (sum (amounts amount [literal 0 0; literal 1 0]))) 2))
       0%nat (amounts amount [literal 0 0; literal 1 0]), s).
Proof.
  intros Hp. unfold randomDistribute. now rewrite points_single.
Qed.

End Splitting.

(** * Facts about the pager *)

(** One item is enough for a first page. *)
Lemma totalPages_pos (totalCount : Z) :
  (1 <= totalCount)%Z -> (1 <= Pager.totalPages (Some totalCount))%Z.
Proof.
  intros H. unfold Pager.totalPages, Pager.pageSize. simpl.
  Z.div_mod_to_equations. lia.
Qed.

Ltac unit_draws :=
  unfold draws, taken; simpl;
  repeat first
    [ apply List.Forall_nil
    | apply List.Forall_cons; [repeat split |] ].

(** * The claims *)

(** C1 fails on the code: for amount 0.125 and one recipient the raw
    share is 0.13, the residual 0.125 - 0.13 is just below -0.005 in
    doubles and rounds to -0.01, and the share comes back as
    0.12000000000000001; the sum rounds to 0.12, the amount to 0.13. *)
Theorem sum_misses_rounded_amount (s : source) :
  le (literal 0 0) (literal 125 (-3)) = true /\
  shares (literal 125 (-3)) 1 s = [literal 12000000000000001 (-17)] /\
  round (sum (shares (literal 125 (-3)) 1 s)) 2 = literal 12 (-2) /\
  round (literal 125 (-3)) 2 = literal 13 (-2) /\
  literal 12 (-2) <> literal 13 (-2).
Proof.
  assert (shares (literal 125 (-3)) 1 s = [literal 12000000000000001 (-17)])
    as E.
  { unfold shares. rewrite randomDistribute_single by lia.
    vm_compute. reflexivity. }
  rewrite E. repeat split; try (vm_compute; reflexivity).
  vm_compute. discriminate.
Qed.




(** C3 fails as stated: with people = 0 the raw shares are not empty.
    [_.times(-1, ...)] yields no draw, the points are [0; 1], and the one
    gap between them gives one raw share: for amount 5 the result is the
    single share 5. *)
Lemma zero_people_one_share :
  le (literal 0 0) (literal 5 0) = true /\
  amounts (literal 5 0) (points 0 quarters).1 <> [] /\
  length (shares (literal 5 0) 0 quarters) = 1%nat /\
  shares (literal 5 0) 0 quarters = [literal 5 0].
Proof.
  split; [reflexivity |].
  split; [vm_compute; discriminate |].
  split; vm_compute; reflexivity.
Qed.

(** C3 (amended): with people = 0, whatever the amount, no draw is taken,
    the points are [0; 1], there is exactly one raw share before the
    residual step, and [randomDistribute] returns a one-entry vector, the
    very one it returns for people = 1. *)
Theorem zero_people_as_one (amount : number) (s : source) :
  points 0 s = ([literal 0 0; literal 1 0], s) /\
  length (amounts amount (points 0 s).1) = 1%nat /\
  length (shares amount 0 s) = 1%nat /\
  randomDistribute amount 0 s = randomDistribute amount 1 s.
Proof.
  split; [apply points_single; lia |].
  split; [rewrite length_raw; reflexivity |].
  split; [rewrite length_shares; reflexivity |].
  rewrite !randomDistribute_single by lia. reflexivity.
Qed.

(** C4: for people >= 1, [randomDistribute] returns exactly [people]
    shares (whatever the amount and the draws). *)
Theorem shares_length (amount : number) (people : Z) (s : source) :
  (1 <= people)%Z ->
  Z.of_nat (length (shares amount people s)) = people.
Proof. intros Hp. rewrite length_shares. lia. Qed.

Lemma shares_length_witness :
  (1 <= 4)%Z /\ Z.of_nat (length (shares (literal 2 (-2)) 4 quarters)) = 4%Z.
Proof.
  assert (1 <= 4)%Z as Hp by lia.
  exact (conj Hp (shares_length (literal 2 (-2)) 4 quarters Hp)).
Defined.

(** C5 fails on the code: for amount 0.125, [randomDistribute(amount, 1)]
    takes no draw and has the single raw share round(0.125 * (1 - 0), 2)
    = 0.13, but the residual round(0.125 - 0.13, 2) is -0.01, not 0, and
    the vector returned is [0.12000000000000001], not [0.13]. *)
Theorem single_share_misses_rounded_amount (s : source) :
  le (literal 0 0) (literal 125 (-3)) = true /\
  points 1 s = ([literal 0 0; literal 1 0], s) /\
  (randomDistribute (literal 125 (-3)) 1 s).2 = s /\
  amounts (literal 125 (-3)) (points 1 s).1 = [literal 13 (-2)] /\
  round (sub (literal 125 (-3))
           (sum (amounts (literal 125 (-3)) (points 1 s).1))) 2
  = literal (-1) (-2) /\
  shares (literal 125 (-3)) 1 s = [literal 12000000000000001 (-17)] /\
  shares (literal 125 (-3)) 1 s <> [round (literal 125 (-3)) 2].
Proof.
  assert (points 1 s = ([literal 0 0; literal 1 0], s)) as Hpts
    by (apply points_single; lia).
  unfold shares. rewrite randomDistribute_single, Hpts by lia.
  repeat split; try (vm_compute; reflexivity).
  vm_compute. discriminate.
Qed.

(** C6: for people = n >= 1 and draws in [0, 1), [randomDistribute(0, n)]
    returns [n] shares, each of them zero; so it does for the negative
    zero. *)
Theorem zero_amount_zero_shares (amount : number) (people : Z) (s : source) :
  is_zero amount -> (1 <= people)%Z -> Forall in_unit (draws people s) ->
  Z.of_nat (length (shares amount people s)) = people /\
  Forall is_zero (shares amount people s).
Proof.
  intros Ha Hp Hu. split; [rewrite length_shares; lia |].
  rewrite shares_eq.
  pose proof (fractions_plain _ (points_unit people s Hu)
                (points_sorted people s Hu)) as Hg.
  pose proof (amounts_zero amount _ Ha Hg) as Hz.
  apply Forall_alter; [exact Hz |].
  intros x _ Hx. simpl.
  apply add_zero; [exact Hx |].
  apply round_is_zero, sub_zero; [exact Ha | now apply sum_zero].
Qed.

Lemma zero_amount_zero_shares_witness :
  is_zero (literal 0 0) /\ (1 <= 4)%Z /\ Forall in_unit (draws 4 quarters) /\
  Z.of_nat (length (shares (literal 0 0) 4 quarters)) = 4%Z /\
  Forall is_zero (shares (literal 0 0) 4 quarters).
Proof.
  assert (is_zero (literal 0 0)) as Ha by (exists false; reflexivity).
  assert (1 <= 4)%Z as Hp by lia.
  assert (Forall in_unit (draws 4 quarters)) as Hu by unit_draws.
  exact (conj Ha (conj Hp (conj Hu
           (zero_amount_zero_shares (literal 0 0) 4 quarters Ha Hp Hu)))).
Defined.

(** C7: for people >= 1 and draws in [0, 1), let p be the draws in
    ascending order with 0 in front and 1 behind, people + 1 points in
    all; then the i-th raw share is
    round(amount * (p_(i+1) - p_i), 2) for every i below people, product
    and difference being those of doubles, and the rounding of a finite
    number going through its decimal text: shift the point by 2,
    [Math.round], shift back; an infinity or NaN is left as it is.  (The
    sign of [amount] plays no part.) *)
Theorem raw_shares_are_rounded_gaps (amount : number) (people : Z)
    (s : source) :
  (1 <= people)%Z -> Forall in_unit (draws people s) ->
  (exists cuts : list number,
    Permutation cuts (draws people s) /\
    let p := literal 0 0 :: cuts ++ [literal 1 0] in
    StronglySorted leR p /\
    Z.of_nat (length p) = (people + 1)%Z /\
    forall i : nat,
      (Z.of_nat i < people)%Z ->
      amounts amount (points people s).1 !! i
      = Some (round (mul amount
                       (sub (nth (S i) p S754_nan) (nth i p S754_nan))) 2)) /\
  forall x : number,
    (isFinite x = true -> round x 2 = scale (Math_round (scale x 2)) (-2)) /\
    (isFinite x = false -> round x 2 = x).
Proof.
  intros Hp Hu. split.
  - exists (sortBy (draws people s)).
    split; [apply sortBy_perm |].
    cbv zeta. rewrite <- points_fst.
    split; [now apply points_sorted |].
    split; [rewrite length_points; lia |].
    intros i Hi. apply amounts_lookup. rewrite length_points. lia.
  - intros x. unfold round. split; intros Hx; rewrite Hx; [reflexivity |].
    now destruct x.
Qed.

Lemma raw_shares_are_rounded_gaps_witness :
  ((1 <= 2)%Z /\ Forall in_unit (draws 2 quarters) /\
   (exists cuts : list number,
     Permutation cuts (draws 2 quarters) /\
     let p := literal 0 0 :: cuts ++ [literal 1 0] in
     StronglySorted leR p /\
     Z.of_nat (length p) = (2 + 1)%Z /\
     forall i : nat,
       (Z.of_nat i < 2)%Z ->
       amounts (literal 3 (-1)) (points 2 quarters).1 !! i
       = Some (round (mul (literal 3 (-1))
                        (sub (nth (S i) p S754_nan) (nth i p S754_nan))) 2)) /\
   forall x : number,
     (isFinite x = true -> round x 2 = scale (Math_round (scale x 2)) (-2)) /\
     (isFinite x = false -> round x 2 = x)) /\
  mul (literal 3 (-1)) (literal 75 (-2)) = literal 22499999999999998 (-17) /\
  amounts (literal 3 (-1)) (points 2 quarters).1
  = [literal 22 (-2); literal 8 (-2)].
Proof.
  assert (1 <= 2)%Z as Hp by lia.
  assert (Forall in_unit (draws 2 quarters)) as Hu by unit_draws.
  split.
  - exact (conj Hp (conj Hu
             (raw_shares_are_rounded_gaps (literal 3 (-1)) 2 quarters Hp Hu))).
  - split; vm_compute; reflexivity.
Defined.




(** C10: with totalPages >= 1 and the page in [1, totalPages], what each
    of the four buttons sets the page to is again in [1, totalPages]; so
    no run of clicks takes the page out of that interval. *)
Theorem page_stays_in_range (totalPages page : Z) :
  (1 <= totalPages)%Z -> Pager.in_range totalPages page ->
  (forall b : Pager.button,
      Pager.in_range totalPages (Pager.onClick totalPages b page)) /\
  (forall bs : list Pager.button,
      Pager.in_range totalPages (Pager.clicks totalPages page bs)).
Proof.
  intros Ht Hpage.
  assert (forall p b, Pager.in_range totalPages p ->
                      Pager.in_range totalPages (Pager.onClick totalPages b p))
    as Hstep.
  { intros p b. unfold Pager.in_range. destruct b; simpl; lia. }
  split; [intros b; now apply Hstep |].
  intros bs. revert page Hpage.
  induction bs as [|b bs IH]; intros page Hpage; [exact Hpage |].
  apply IH. unfold Pager.click.
  destruct (Pager.disabled totalPages b page); [exact Hpage | now apply Hstep].
Qed.

Lemma page_stays_in_range_witness :
  (1 <= 3)%Z /\ Pager.in_range 3 2 /\
  (forall b : Pager.button, Pager.in_range 3 (Pager.onClick 3 b 2)) /\
  (forall bs : list Pager.button, Pager.in_range 3 (Pager.clicks 3 2 bs)).
Proof.
  assert (1 <= 3)%Z as Ht by lia.
  assert (Pager.in_range 3 2) as Hpage by (unfold Pager.in_range; lia).
  exact (conj Ht (conj Hpage (page_stays_in_range 3 2 Ht Hpage))).
Defined.

(** * Further properties: the pager and its query *)

(** X1: [totalPages] is the ceiling of totalCount / pageSize: the pages
    hold all rows and the last one is not empty; a missing count gives
    no page. *)
Theorem totalPages_is_ceiling (totalCount : Z) :
  Pager.totalPages None = 0%Z /\
  let t := Pager.totalPages (Some totalCount) in
  (Pager.pageSize * (t - 1) < totalCount <= Pager.pageSize * t)%Z.
Proof.
  split; [reflexivity |].
  unfold Pager.totalPages, Pager.pageSize. simpl.
  Z.div_mod_to_equations. lia.
Qed.

(** X2: every row index below totalCount falls in the query window
    [offset, offset + limit) of exactly one page, and that page is one
    the buttons can reach, in [1, totalPages]. *)
Theorem every_row_on_one_page (totalCount k : Z) :
  (0 <= k < totalCount)%Z ->
  exists page : Z,
    Pager.in_range (Pager.totalPages (Some totalCount)) page /\
    (Listing.offset page <= k < Listing.offset page + Listing.limit)%Z /\
    forall page' : Z,
      (Listing.offset page' <= k < Listing.offset page' + Listing.limit)%Z ->
      page' = page.
Proof.
  intros Hk. exists (k / Pager.pageSize + 1)%Z.
  unfold Pager.in_range, Pager.totalPages, Listing.offset, Listing.limit,
    Pager.pageSize.
  simpl. repeat split; try (intros page' Hp); Z.div_mod_to_equations; lia.
Qed.

Lemma every_row_on_one_page_witness :
  (0 <= 24 < 25)%Z /\
  exists page : Z,
    Pager.in_range (Pager.totalPages (Some 25%Z)) page /\
    (Listing.offset page <= 24 < Listing.offset page + Listing.limit)%Z /\
    forall page' : Z,
      (Listing.offset page' <= 24 < Listing.offset page' + Listing.limit)%Z ->
      page' = page.
Proof.
  assert (0 <= 24 < 25)%Z as Hk by lia.
  exact (conj Hk (every_row_on_one_page 25 24 Hk)).
Defined.

(** X3: for a page in [1, totalPages] the query offset is a row index:
    non-negative and below totalCount, so no page in range is past the
    end. *)
Theorem offset_is_a_row (totalCount page : Z) :
  Pager.in_range (Pager.totalPages (Some totalCount)) page ->
  (0 <= Listing.offset page < totalCount)%Z.
Proof.
  unfold Pager.in_range, Pager.totalPages, Listing.offset, Pager.pageSize.
  simpl. intros H. Z.div_mod_to_equations. lia.
Qed.

Lemma offset_is_a_row_witness :
  Pager.in_range (Pager.totalPages (Some 25%Z)) 3 /\
  (0 <= Listing.offset 3 < 25)%Z.
Proof.
  assert (Pager.in_range (Pager.totalPages (Some 25%Z)) 3) as H
    by (change (Pager.totalPages (Some 25%Z)) with 3%Z;
        unfold Pager.in_range; lia).
  exact (conj H (offset_is_a_row 25 3 H)).
Defined.

(** X4: on a page in [1, totalPages] a button is disabled exactly when
    its handler would leave the page where it is; so every enabled button
    moves the page. *)
Theorem disabled_iff_no_move (totalPages page : Z) (b : Pager.button) :
  Pager.in_range totalPages page ->
  Pager.disabled totalPages b page = true <->
  Pager.onClick totalPages b page = page.
Proof.
  unfold Pager.in_range. intros H.
  destruct b; simpl; rewrite Z.eqb_eq; lia.
Qed.

Lemma disabled_iff_no_move_witness :
  Pager.in_range 3 2 /\
  (Pager.disabled 3 Pager.Next 2 = true <-> Pager.onClick 3 Pager.Next 2 = 2%Z).
Proof.
  assert (Pager.in_range 3 2) as H by (unfold Pager.in_range; lia).
  exact (conj H (disabled_iff_no_move 3 2 Pager.Next H)).
Defined.

(** X5: next-then-previous returns to the page it started from unless
    that was the last page, and previous-then-next unless it was the
    first. *)
Theorem next_prev_round_trip (totalPages page : Z) :
  Pager.in_range totalPages page ->
  ((page < totalPages)%Z ->
   Pager.clicks totalPages page [Pager.Next; Pager.Prev] = page) /\
  ((1 < page)%Z ->
   Pager.clicks totalPages page [Pager.Prev; Pager.Next] = page).
Proof.
  unfold Pager.in_range, Pager.clicks, Pager.click. intros H. simpl.
  split; intros H'.
  - destruct (Z.eqb_spec page totalPages); [lia |].
    destruct (Z.eqb_spec (Z.min totalPages (page + 1)) 1); lia.
  - destruct (Z.eqb_spec page 1); [lia |].
    destruct (Z.eqb_spec (Z.max 1 (page - 1)) totalPages); lia.
Qed.

Lemma next_prev_round_trip_witness :
  Pager.in_range 3 2 /\
  ((2 < 3)%Z -> Pager.clicks 3 2 [Pager.Next; Pager.Prev] = 2%Z) /\
  ((1 < 2)%Z -> Pager.clicks 3 2 [Pager.Prev; Pager.Next] = 2%Z).
Proof.
  assert (Pager.in_range 3 2) as H by (unfold Pager.in_range; lia).
  exact (conj H (next_prev_round_trip 3 2 H)).
Defined.

(** X6: every page in [1, totalPages] can be reached from every other:
    first, then next as often as needed. *)
Theorem every_page_reachable (totalPages page target : Z) :
  Pager.in_range totalPages page -> Pager.in_range totalPages target ->
  Pager.clicks totalPages page
    (Pager.First :: replicate (Z.to_nat (target - 1)) Pager.Next) = target.
Proof.
  unfold Pager.in_range. intros Hp Ht.
  assert (Pager.clicks totalPages page [Pager.First] = 1%Z) as H1.
  { unfold Pager.clicks, Pager.click. simpl.
    destruct (Z.eqb_spec page 1); lia. }
  change (Pager.First :: ?l) with ([Pager.First] ++ l).
  unfold Pager.clicks in *. rewrite fold_left_app, H1. clear H1.
  assert (forall (n : nat) (p : Z),
             (1 <= p)%Z -> (p + Z.of_nat n <= totalPages)%Z ->
             fold_left (Pager.click totalPages) (replicate n Pager.Next) p
             = (p + Z.of_nat n)%Z) as Hnext.
  { induction n as [|n IH]; intros p Hp1 Hpn; simpl; [lia |].
    unfold Pager.click at 2. simpl.
    destruct (Z.eqb_spec p totalPages); [lia |].
    rewrite IH; lia. }
  rewrite Hnext; lia.
Qed.

Lemma every_page_reachable_witness :
  Pager.in_range 3 2 /\ Pager.in_range 3 3 /\
  Pager.clicks 3 2
    (Pager.First :: replicate (Z.to_nat (3 - 1)) Pager.Next) = 3%Z.
Proof.
  assert (Pager.in_range 3 2) as Hp by (unfold Pager.in_range; lia).
  assert (Pager.in_range 3 3) as Ht by (unfold Pager.in_range; lia).
  exact (conj Hp (conj Ht (every_page_reachable 3 2 3 Hp Ht))).
Defined.

(** X7: when there is no row (count missing or 0) there are 0 pages while
    the page is still 1; the next and last buttons are then enabled and
    set the page to 0, whose query offset is negative. *)
Theorem no_rows_page_zero (totalCount : option Z) :
  default 0%Z totalCount = 0%Z ->
  let t := Pager.totalPages totalCount in
  t = 0%Z /\
  Pager.disabled t Pager.Next 1 = false /\ Pager.click t 1 Pager.Next = 0%Z /\
  Pager.disabled t Pager.Last 1 = false /\ Pager.click t 1 Pager.Last = 0%Z /\
  (Listing.offset 0 < 0)%Z.
Proof.
  intros H. unfold Pager.totalPages. rewrite H. now vm_compute.
Qed.

Lemma no_rows_page_zero_witness :
  default 0%Z (Some 0%Z) = 0%Z /\
  let t := Pager.totalPages (Some 0%Z) in
  t = 0%Z /\
  Pager.disabled t Pager.Next 1 = false /\ Pager.click t 1 Pager.Next = 0%Z /\
  Pager.disabled t Pager.Last 1 = false /\ Pager.click t 1 Pager.Last = 0%Z /\
  (Listing.offset 0 < 0)%Z.
Proof.
  assert (default 0%Z (Some 0%Z) = 0%Z) as H by reflexivity.
  exact (conj H (no_rows_page_zero (Some 0%Z) H)).
Defined.

(** X8: from a page left above totalPages (the page is kept when a filter
    shrinks the listing), first, next and last land in [1, totalPages];
    previous only steps down by one, so it lands there just when the page
    was totalPages + 1.  All four buttons are enabled on such a page. *)
Theorem stale_page_recovery (totalPages page : Z) :
  (1 <= totalPages < page)%Z ->
  (forall b : Pager.button, Pager.disabled totalPages b page = false) /\
  Pager.in_range totalPages (Pager.click totalPages page Pager.First) /\
  Pager.in_range totalPages (Pager.click totalPages page Pager.Next) /\
  Pager.in_range totalPages (Pager.click totalPages page Pager.Last) /\
  Pager.click totalPages page Pager.Prev = (page - 1)%Z /\
  (Pager.in_range totalPages (Pager.click totalPages page Pager.Prev)
   <-> page = (totalPages + 1)%Z).
Proof.
  intros H.
  assert (forall b, Pager.disabled totalPages b page = false) as Hd.
  { intros b. destruct b; simpl; apply Z.eqb_neq; lia. }
  split; [exact Hd |].
  unfold Pager.click, Pager.in_range. rewrite !Hd. simpl. lia.
Qed.

Lemma stale_page_recovery_witness :
  (1 <= 2 < 5)%Z /\
  (forall b : Pager.button, Pager.disabled 2 b 5 = false) /\
  Pager.in_range 2 (Pager.click 2 5 Pager.First) /\
  Pager.in_range 2 (Pager.click 2 5 Pager.Next) /\
  Pager.in_range 2 (Pager.click 2 5 Pager.Last) /\
  Pager.click 2 5 Pager.Prev = (5 - 1)%Z /\
  (Pager.in_range 2 (Pager.click 2 5 Pager.Prev) <-> 5%Z = (2 + 1)%Z).
Proof.
  assert (1 <= 2 < 5)%Z as H by lia.
  exact (conj H (stale_page_recovery 2 5 H)).
Defined.

(** * Further properties: the reward dialog *)

(** * Further properties: the reward dialog *)

Section DialogFacts.
Import Dialog.

Lemma length_onAmountChange (users : list User) (value : number)
    (st : state) (s : source) :
  length (amounts (onAmountChange users value st s).1)
  = Nat.max 1 (length users).
Proof.
  unfold onAmountChange.
  pose proof (length_shares value (Z.of_nat (length users)) s) as H.
  unfold shares in H.
  destruct (randomDistribute value (Z.of_nat (length users)) s) as [a s'].
  simpl in *. rewrite H. lia.
Qed.

Lemma allToWei_length (l : list number) (weis : list Z) :
  allToWei l = inr weis -> length weis = length l.
Proof.
  revert weis. induction l as [|x l IH]; intros weis H; simpl in H.
  - now injection H as <-.
  - destruct (toWei x); [discriminate |].
    destruct (allToWei l); [discriminate |].
    injection H as <-. simpl. now rewrite (IH _ eq_refl).
Qed.

Lemma toWei_throws (x : number) (error : thrown) :
  toWei x = inl error -> error = AnError "RangeError".
Proof.
  unfold toWei. destruct (BigInt _); [discriminate |]. now intros [= <-].
Qed.

Lemma allToWei_throws (l : list number) (error : thrown) :
  allToWei l = inl error ->
  error = AnError "RangeError" /\
  Exists (fun amount => toWei amount = inl error) l.
Proof.
  induction l as [|x l IH]; intros H; simpl in H; [discriminate |].
  destruct (toWei x) as [e | wei] eqn:E.
  - injection H as <-. split; [now apply (toWei_throws x) |].
    now apply Exists_cons_hd.
  - destruct (allToWei l); [| discriminate].
    injection H as <-. destruct (IH eq_refl) as [He Hl].
    split; [exact He |]. now apply Exists_cons_tl.
Qed.

End DialogFacts.

(** The number of amounts the dialog holds after any run of edits. *)
Lemma length_edited (users : list Dialog.User) (values : list number)
    (s : source) :
  length (Dialog.amounts (edited users values (Dialog.initial users) s).1)
  = match values with
    | [] => length users
    | _ :: _ => Nat.max 1 (length users)
    end.
Proof.
  destruct values as [|v values _] using rev_ind.
  - simpl. apply length_replicate.
  - unfold edited. rewrite foldl_app. simpl.
    destruct (foldl _ _ values) as [st s'].
    rewrite length_onAmountChange.
    now destruct values.
Qed.

Section SubmitFacts.
Import Dialog.
Context (w : collaborators) (id addressFrom : string)
  (users : list User) (st : state).

Let githubIds := githubId <$> users.

(** The runs of [onSubmit], by the outcome of the conversion to wei and
    the answers of the collaborators. *)
Lemma onSubmit_runs :
  let run := onSubmit w id addressFrom users st in
  let get := GetAllowance addressFrom in
  let approve := ApproveAllowance (parseEther 5000) in
  let post := PostGrantPeriodRewards id in
  let failed calls error :=
    run = (SetLoading true :: calls
           ++ [Toast Destructive "Error" (description_of error);
               SetLoading false], inr tt) in
  let done calls :=
    run = (SetLoading true :: calls
           ++ [SetOpen false; Toast Default "Success" "Reward Granted";
               SetLoading false], inr tt) in
  match allToWei (amounts st) with
  | inl error => failed [] error
  | inr amountsInWei =>
      let totalAmount := foldl Z.add 0%Z amountsInWei in
      let create := CreateRedPacket id githubIds amountsInWei in
      match getAllowance w addressFrom with
      | inl error => failed [get] error
      | inr currentAllowance =>
          let asked :=
            if (currentAllowance <? totalAmount)%Z
            then [get; approve] else [get] in
          match (if (currentAllowance <? totalAmount)%Z
                 then approveAllowance w (parseEther 5000) else inr tt) with
          | inl error => failed asked error
          | inr _ =>
              match createRedPacket w id githubIds amountsInWei with
              | inl error => failed (asked ++ [create]) error
              | inr _ =>
                  match postGrantPeriodRewards w id with
                  | inl error => failed (asked ++ [create; post]) error
                  | inr _ => done (asked ++ [create; post])
                  end
              end
          end
      end
  end.
Proof.
  unfold onSubmit. fold githubIds.
  destruct (allToWei (amounts st)) as [e | amountsInWei];
    [destruct e; reflexivity |].
  unfold step. cbn [mbind M_bind app]. cbn beta iota zeta.
  destruct (getAllowance w addressFrom) as [e | a]; [destruct e; reflexivity |].
  cbn beta iota zeta.
  destruct (Z.ltb a (foldl Z.add 0%Z amountsInWei)) eqn:E.
  - destruct (approveAllowance w (parseEther 5000)) as [e | []];
      [destruct e; simpl; rewrite E; reflexivity |].
    destruct (createRedPacket w id githubIds amountsInWei) as [e | []];
      [destruct e; simpl; rewrite E; reflexivity |].
    destruct (postGrantPeriodRewards w id) as [e | []];
      [destruct e |]; simpl; rewrite E; reflexivity.
  - destruct (createRedPacket w id githubIds amountsInWei) as [e | []];
      [destruct e; simpl; rewrite E; reflexivity |].
    destruct (postGrantPeriodRewards w id) as [e | []];
      [destruct e |]; simpl; rewrite E; reflexivity.
Qed.

End SubmitFacts.

Ltac use_answers :=
  repeat match goal with
    | E : _ = inl _ |- _ => rewrite E
    | E : _ = inr _ |- _ => rewrite E
    | E : Z.ltb _ _ = _ |- _ => rewrite E
    end.

Ltac answered :=
  repeat match goal with x := _ : Dialog.event |- _ => subst x end;
  repeat constructor; cbn [failure]; use_answers; reflexivity.

Ltac submit_failed pre e error :=
  split; [reflexivity |]; split; [reflexivity |];
  exists (pre ++ [e]), [Dialog.Toast Dialog.Destructive "Error" (description_of error)];
  split; [reflexivity |]; split; [repeat constructor |];
  right; right; exists pre, e, error;
  split; [reflexivity |]; split; [answered |]; split; [answered |];
  split; reflexivity.

Ltac submit_done calls weis :=
  split; [reflexivity |]; split; [reflexivity |];
  exists calls,
    [Dialog.SetOpen false; Dialog.Toast Dialog.Default "Success" "Reward Granted"];
  split; [reflexivity |]; split; [repeat constructor |];
  left; split; [reflexivity |]; split; [answered |];
  split; [reflexivity | now exists weis].

(** X11: [onSubmit] never throws and always ends with loading off.  It
    logs loading on, the calls it made, and then one of three endings,
    loading off coming last: the dialog closed and the success toast,
    the amounts having been turned into wei and every call having gone
    through; or, no call having been made, the error toast "RangeError",
    an amount having no wei value ([BigInt] threw), the dialog left as it
    was; or the one error toast naming what the last call threw, the
    dialog left as it was. *)
Theorem onSubmit_always_settles (w : Dialog.collaborators)
    (id addressFrom : string) (users : list Dialog.User) (st : Dialog.state) :
  let run := Dialog.onSubmit w id addressFrom users st in
  run.2 = inr tt /\
  Dialog.loading (Dialog.after st run) = false /\
  exists calls ending : list Dialog.event,
    run.1 = Dialog.SetLoading true :: calls ++ ending ++ [Dialog.SetLoading false] /\
    Forall (fun e => is_call e = true) calls /\
    ((ending = [Dialog.SetOpen false;
                Dialog.Toast Dialog.Default "Success" "Reward Granted"] /\
      Forall (fun e => failure w e = None) calls /\
      Dialog.isOpen (Dialog.after st run) = false /\
      exists weis : list Z, Dialog.allToWei (Dialog.amounts st) = inr weis)
     \/
     (calls = [] /\
      ending = [Dialog.Toast Dialog.Destructive "Error" "RangeError"] /\
      Dialog.isOpen (Dialog.after st run) = Dialog.isOpen st /\
      Exists (fun amount =>
                Dialog.toWei amount = inl (Dialog.AnError "RangeError"))
        (Dialog.amounts st))
     \/
     (exists pre e error,
         calls = pre ++ [e] /\
         Forall (fun e => failure w e = None) pre /\
         failure w e = Some error /\
         ending = [Dialog.Toast Dialog.Destructive "Error" (description_of error)] /\
         Dialog.isOpen (Dialog.after st run) = Dialog.isOpen st)).
Proof.
  intros run.
  pose proof (onSubmit_runs w id addressFrom users st) as H.
  cbv zeta in H. fold run in H.
  destruct (Dialog.allToWei (Dialog.amounts st)) as [e | weis] eqn:E0.
  { destruct (allToWei_throws _ _ E0) as [-> Hex]. rewrite H.
    split; [reflexivity |]. split; [reflexivity |].
    exists [], [Dialog.Toast Dialog.Destructive "Error" "RangeError"].
    split; [reflexivity |]. split; [constructor |].
    right; left. split; [reflexivity |]. split; [reflexivity |].
    split; [reflexivity | exact Hex]. }
  set (get := Dialog.GetAllowance addressFrom) in *.
  set (approve := Dialog.ApproveAllowance (Dialog.parseEther 5000)) in *.
  set (create := Dialog.CreateRedPacket id _ _) in *.
  set (post := Dialog.PostGrantPeriodRewards id) in *.
  destruct (Dialog.getAllowance w addressFrom) as [e | a] eqn:E1.
  { rewrite H. submit_failed (@nil Dialog.event) get e. }
  destruct (Z.ltb a _) eqn:El.
  - destruct (Dialog.approveAllowance w _) as [e | []] eqn:E2.
    { rewrite H. submit_failed [get] approve e. }
    destruct (Dialog.createRedPacket w _ _ _) as [e | []] eqn:E3.
    { rewrite H. submit_failed [get; approve] create e. }
    destruct (Dialog.postGrantPeriodRewards w _) as [e | []] eqn:E4.
    { rewrite H. submit_failed [get; approve; create] post e. }
    rewrite H. submit_done [get; approve; create; post] weis.
  - destruct (Dialog.createRedPacket w _ _ _) as [e | []] eqn:E3.
    { rewrite H. submit_failed [get] create e. }
    destruct (Dialog.postGrantPeriodRewards w _) as [e | []] eqn:E4.
    { rewrite H. submit_failed [get; create] post e. }
    rewrite H. submit_done [get; create; post] weis.
Qed.

Ltac in_trace :=
  repeat split; unfold not; intros;
  repeat match goal with
    | H : _ \/ _ |- _ => destruct H
    | H : _ /\ _ |- _ => destruct H
    | H : ex _ |- _ => destruct H
    | H : False |- _ => destruct H
    | H : @eq Dialog.event _ _ |- _ => first [discriminate H | injection H as H; subst]
    | H : @eq (Datatypes.sum _ _) _ _ |- _ => first [discriminate H | injection H as H; subst]
    end;
  subst;
  try solve
    [ lia
    | repeat split; eauto; simpl; auto 10; lia
    | eexists; split;
      [reflexivity | intros; first [lia | reflexivity | assumption]]
    | eexists; eexists; split; [reflexivity |]; split;
      [reflexivity | first [lia | assumption]] ].

(** What [onSubmit] passes to [createRedPacket], when it gets there. *)
Lemma onSubmit_creates (w : Dialog.collaborators) (id addressFrom : string)
    (users : list Dialog.User) (st : Dialog.state)
    (i : string) (g : list string) (a : list Z) :
  In (Dialog.CreateRedPacket i g a)
    (Dialog.onSubmit w id addressFrom users st).1 ->
  i = id /\ g = Dialog.githubId <$> users /\
  Dialog.allToWei (Dialog.amounts st) = inr a.
Proof.
  pose proof (onSubmit_runs w id addressFrom users st) as H.
  cbv zeta in H.
  destruct (Dialog.allToWei (Dialog.amounts st)) as [e | weis].
  { rewrite H. simpl. in_trace. }
  destruct (Dialog.getAllowance w addressFrom) as [e | allowance].
  { rewrite H. simpl. in_trace. }
  destruct (Z.ltb allowance _).
  - destruct (Dialog.approveAllowance w _) as [e | []];
      [rewrite H; simpl; in_trace |].
    destruct (Dialog.createRedPacket w _ _ _) as [e | []];
      [rewrite H; simpl; in_trace |].
    destruct (Dialog.postGrantPeriodRewards w _) as [e | []];
      rewrite H; simpl; in_trace.
  - destruct (Dialog.createRedPacket w _ _ _) as [e | []];
      [rewrite H; simpl; in_trace |].
    destruct (Dialog.postGrantPeriodRewards w _) as [e | []];
      rewrite H; simpl; in_trace.
Qed.

(** X12: [onSubmit] makes no call at all when an amount has no wei value.
    Otherwise, with the amounts turned into wei and the total their sum:
    it reports the reward to the backend only after [createRedPacket]
    went through; it calls [createRedPacket], with those wei amounts,
    only once the allowance was read and, if below the total, an approval
    went through; it asks for an approval exactly when the allowance
    read is below the total, and always for 5000 ether, whatever the
    total; it never switches the chain. *)
Theorem onSubmit_call_order (w : Dialog.collaborators)
    (id addressFrom : string) (users : list Dialog.User) (st : Dialog.state) :
  let trace := (Dialog.onSubmit w id addressFrom users st).1 in
  let githubIds := Dialog.githubId <$> users in
  let converted := Dialog.allToWei (Dialog.amounts st) in
  let totalAmount (amountsInWei : list Z) := foldl Z.add 0%Z amountsInWei in
  (forall error : Dialog.thrown,
      converted = inl error -> Forall (fun e => is_call e = false) trace) /\
  (forall i : string,
      In (Dialog.PostGrantPeriodRewards i) trace ->
      i = id /\
      exists amountsInWei : list Z,
        converted = inr amountsInWei /\
        Dialog.createRedPacket w id githubIds amountsInWei = inr tt) /\
  (forall (i : string) (g : list string) (a : list Z),
      In (Dialog.CreateRedPacket i g a) trace ->
      converted = inr a /\
      exists allowance : Z,
        Dialog.getAllowance w addressFrom = inr allowance /\
        ((allowance < totalAmount a)%Z ->
         Dialog.approveAllowance w (Dialog.parseEther 5000) = inr tt)) /\
  (forall v : Z,
      In (Dialog.ApproveAllowance v) trace <->
      v = Dialog.parseEther 5000 /\
      exists (amountsInWei : list Z) (allowance : Z),
        converted = inr amountsInWei /\
        Dialog.getAllowance w addressFrom = inr allowance /\
        (allowance < totalAmount amountsInWei)%Z) /\
  (forall c : Z, ~ In (Dialog.SwitchChain c) trace).
Proof.
  intros trace githubIds converted totalAmount.
  subst trace converted totalAmount. cbv beta.
  pose proof (onSubmit_runs w id addressFrom users st) as H.
  cbv zeta in H. fold githubIds in H.
  destruct (Dialog.allToWei (Dialog.amounts st)) as [e | weis].
  { rewrite H. simpl. in_trace. }
  destruct (Dialog.getAllowance w addressFrom) as [e | allowance].
  { rewrite H. simpl. in_trace. }
  destruct (Z.ltb_spec allowance (foldl Z.add 0%Z weis)) as [Hlt | Hge].
  - destruct (Dialog.approveAllowance w _) as [e | []];
      [rewrite H; simpl; in_trace |].
    destruct (Dialog.createRedPacket w _ _ _) as [e | []] eqn:Hcreate;
      [rewrite H; simpl; in_trace |].
    destruct (Dialog.postGrantPeriodRewards w _) as [e | []];
      rewrite H; simpl; in_trace.
  - destruct (Dialog.createRedPacket w _ _ _) as [e | []] eqn:Hcreate;
      [rewrite H; simpl; in_trace |].
    destruct (Dialog.postGrantPeriodRewards w _) as [e | []];
      rewrite H; simpl; in_trace.
Qed.

(** X9: the dialog holds one amount per user from the start and after
    every edit of the amount, except that with no user at all an edit
    leaves one amount; so [createRedPacket] is given as many amounts as
    ids, but for that one case, where it is given one amount and no
    id. *)
Theorem amounts_number_as_users (users : list Dialog.User)
    (values : list number) (s : source) :
  let st := (edited users values (Dialog.initial users) s).1 in
  let n := match values with
           | [] => length users
           | _ :: _ => Nat.max 1 (length users)
           end in
  length (Dialog.amounts st) = n /\
  forall (w : Dialog.collaborators) (id addressFrom i : string)
         (g : list string) (a : list Z),
    In (Dialog.CreateRedPacket i g a)
      (Dialog.onSubmit w id addressFrom users st).1 ->
    length g = length users /\ length a = n.
Proof.
  intros st n.
  assert (length (Dialog.amounts st) = n) as Hn by apply length_edited.
  split; [exact Hn |].
  intros w id addressFrom i g a Hin.
  apply onSubmit_creates in Hin as (_ & -> & Ha).
  apply allToWei_length in Ha.
  rewrite length_fmap. split; [reflexivity | congruence].
Qed.



(** X17: a share can exceed the amount rounded to 2 decimals: for amount
    0.056 split in 2 at the draw 0.0875 the raw shares are 0 and 0.05,
    the residual is 0.01, and the last share, 0.05 + 0.01 in doubles, is
    0.060000000000000005, above round(0.056, 2) = 0.06. *)
Theorem share_can_exceed_rounded_amount :
  Forall in_unit (draws 2 lows) /\
  amounts (literal 56 (-3)) (points 2 lows).1 = [literal 0 0; literal 5 (-2)] /\
  shares (literal 56 (-3)) 2 lows
  = [literal 0 0; literal 60000000000000005 (-18)] /\
  round (literal 56 (-3)) 2 = literal 6 (-2) /\
  lt (literal 6 (-2)) (literal 60000000000000005 (-18)) = true.
Proof.
  split.
  - unfold draws, taken; simpl.
    apply List.Forall_cons; [repeat split | apply List.Forall_nil].
  - repeat split; vm_compute; reflexivity.
Qed.

(** * Further properties: the amount pattern *)

Section RegexFacts.
Import Regex.

Lemma nullable_matches (r : regex) : nullable r = true <-> matches r [].
Proof.
  split.
  - induction r; simpl; intros H; try discriminate.
    + constructor.
    + apply andb_true_iff in H as [H1 H2].
      apply (matches_cat r1 r2 [] []); auto.
    + apply orb_true_iff in H as [H | H];
        [apply matches_alt_l | apply matches_alt_r]; auto.
    + constructor.
  - intros H. remember [] as s eqn:Es.
    induction H; simpl; try discriminate; try reflexivity.
    + apply app_eq_nil in Es as [-> ->]. rewrite IHmatches1, IHmatches2; auto.
    + rewrite IHmatches; auto.
    + rewrite IHmatches; auto using orb_true_r.
Qed.

Lemma deriv_sound (c : ascii) (r : regex) (s : list ascii) :
  matches (deriv c r) s -> matches r (c :: s).
Proof.
  revert s. induction r; intros s H; simpl in H.
  - inversion H.
  - inversion H.
  - destruct (Ascii.eqb_spec c c0) as [-> | _]; inversion H. constructor.
  - destruct (in_range lo hi c) eqn:E; inversion H. now constructor.
  - destruct (nullable r1) eqn:E.
    + inversion H as [| | | | ? ? ? H' | ? ? ? H' | |]; subst.
      * inversion H' as [| | |? ? s1 s2 H1 H2 | | | |]; subst.
        apply (matches_cat r1 r2 (c :: s1) s2); auto.
      * apply (matches_cat r1 r2 [] (c :: s)); auto.
        now apply nullable_matches.
    + inversion H as [| | |? ? s1 s2 H1 H2 | | | |]; subst.
      apply (matches_cat r1 r2 (c :: s1) s2); auto.
  - inversion H; subst; [apply matches_alt_l | apply matches_alt_r]; auto.
  - inversion H as [| | |? ? s1 s2 H1 H2 | | | |]; subst.
    apply (matches_star_cons r (c :: s1) s2); auto.
Qed.

Lemma deriv_complete (c : ascii) (r : regex) (s : list ascii) :
  matches r (c :: s) -> matches (deriv c r) s.
Proof.
  intros H. remember (c :: s) as cs eqn:E. revert s E.
  induction H as [| c' | lo hi c' Hc | r1 r2 s1 s2 H1 IH1 H2 IH2
                 | r1 r2 s' H1 IH1 | r1 r2 s' H2 IH2
                 | r | r s1 s2 H1 IH1 H2 IH2];
    intros s E; simpl; try discriminate.
  - injection E as -> <-. rewrite Ascii.eqb_refl. constructor.
  - injection E as -> <-. rewrite Hc. constructor.
  - destruct s1 as [|c1 s1]; simpl in E.
    + subst s2. apply nullable_matches in H1. rewrite H1.
      apply matches_alt_r. auto.
    + injection E as -> <-.
      destruct (nullable r1);
        [apply matches_alt_l |]; constructor; auto.
  - apply matches_alt_l. auto.
  - apply matches_alt_r. auto.
  - destruct s1 as [|c1 s1]; simpl in E.
    + auto.
    + injection E as -> <-. constructor; auto.
Qed.

(** The matcher accepts the strings the expression stands for. *)
Lemma matches_all_spec (r : regex) (s : list ascii) :
  matches_all r s = true <-> matches r s.
Proof.
  revert r. induction s as [|c s IH]; intros r; simpl.
  - apply nullable_matches.
  - rewrite IH. split; [apply deriv_sound | apply deriv_complete].
Qed.

Lemma in_range_digit (c : ascii) :
  in_range "0" "9" c = true <-> is_digit c.
Proof.
  unfold in_range, is_digit.
  rewrite andb_true_iff, !N.leb_le. reflexivity.
Qed.

Lemma in_range_nonzero_digit (c : ascii) :
  in_range "1" "9" c = true <-> is_nonzero_digit c.
Proof.
  unfold in_range, is_nonzero_digit.
  rewrite andb_true_iff, !N.leb_le. reflexivity.
Qed.

Lemma matches_digits (s : list ascii) :
  matches (Star Form.digit) s <-> Forall is_digit s.
Proof.
  split.
  - intros H. remember (Star Form.digit) as r eqn:E.
    induction H; try discriminate; [constructor |].
    injection E as ->.
    inversion H as [| |? ? c Hc | | | | |]; subst.
    simpl. constructor; [now apply in_range_digit | auto].
  - induction 1 as [|c s Hc _ IH]; [constructor |].
    apply (matches_star_cons _ [c] s); [| exact IH].
    constructor. now apply in_range_digit.
Qed.

(** The amount pattern stands for the decimal numerals. *)
Lemma amount_regex_numeral (s : list ascii) :
  matches Form.amount_regex s <-> is_numeral s.
Proof.
  unfold Form.amount_regex, Opt, Plus, is_numeral. split.
  - intros H.
    inversion H as [| | |? ? whole fraction Hw Hf | | | |]; subst.
    exists whole, fraction. split; [reflexivity |]. split.
    + inversion Hw as [| | | | ? ? ? H0 | ? ? ? Hn | |]; subst.
      * inversion H0; subst. now left.
      * inversion Hn as [| | |? ? s1 s2 H1 H2 | | | |]; subst.
        inversion H1 as [| |? ? d Hd | | | | |]; subst.
        right. exists d, s2. simpl.
        split; [reflexivity |].
        split; [now apply in_range_nonzero_digit | now apply matches_digits].
    + inversion Hf as [| | | | ? ? ? Hp | ? ? ? He | |]; subst.
      * inversion Hp as [| | |? ? s1 s2 H1 H2 | | | |]; subst.
        inversion H1; subst.
        inversion H2 as [| | |? ? s3 s4 H3 H4 | | | |]; subst.
        inversion H3 as [| |? ? d Hd | | | | |]; subst.
        right. exists d, s4. simpl.
        split; [reflexivity |].
        split; [now apply in_range_digit | now apply matches_digits].
      * inversion He; subst. now left.
  - intros (whole & fraction & -> & Hw & Hf).
    constructor.
    + destruct Hw as [-> | (d & ds & -> & Hd & Hds)].
      * apply matches_alt_l. constructor.
      * apply matches_alt_r.
        apply (matches_cat _ _ [d] ds);
          [constructor; now apply in_range_nonzero_digit
          | now apply matches_digits].
    + destruct Hf as [-> | (d & ds & -> & Hd & Hds)].
      * apply matches_alt_r. constructor.
      * apply matches_alt_l.
        apply (matches_cat _ _ ["."%char] (d :: ds)); [constructor |].
        apply (matches_cat _ _ [d] ds);
          [constructor; now apply in_range_digit | now apply matches_digits].
Qed.

End RegexFacts.

(** X13: the amount field accepts exactly the decimal numerals: a whole
    part that is 0 or starts with a digit from 1 to 9, then possibly a
    point followed by one digit or more. *)
Theorem amount_accepted_iff_numeral (value : string) :
  Regex.test Form.amount_regex value = true <->
  is_numeral (String.list_ascii_of_string value).
Proof.
  unfold Regex.test. rewrite matches_all_spec. apply amount_regex_numeral.
Qed.

Lemma ends_with (P : ascii -> Prop) (l : list ascii) :
  l <> [] -> Forall P l -> exists front x, l = front ++ [x] /\ P x.
Proof.
  destruct l as [|x front _] using rev_ind; [congruence |].
  intros _ H. apply Forall_app in H as [_ H].
  exists front, x. split; [reflexivity | now inversion H].
Qed.

Lemma nonzero_digit_is_digit (c : ascii) : is_nonzero_digit c -> is_digit c.
Proof. unfold is_nonzero_digit, is_digit. simpl. lia. Qed.

Lemma digits_without_point (ds : list ascii) :
  Forall is_digit ds -> List.filter (Ascii.eqb ".") ds = [].
Proof.
  induction 1 as [|d ds Hd _ IH]; [reflexivity |].
  cbn [List.filter].
  destruct (Ascii.eqb_spec "." d) as [<- | _]; [| exact IH].
  unfold is_digit in Hd. simpl in Hd. lia.
Qed.

Lemma numeral_is_plain (cs : list ascii) :
  is_numeral cs ->
  Forall (fun c => is_digit c \/ c = "."%char) cs /\
  (length (List.filter (Ascii.eqb ".") cs) <= 1)%nat /\
  (exists d rest, cs = d :: rest /\ is_digit d) /\
  (exists front d, cs = front ++ [d] /\ is_digit d) /\
  (forall c rest, cs = "0"%char :: c :: rest -> c = "."%char).
Proof.
  assert (is_digit "0") as Hzero by (unfold is_digit; simpl; lia).
  intros (whole & fraction & -> & Hw & Hf).
  assert (exists d ds, whole = d :: ds /\ Forall is_digit (d :: ds) /\
                       (d = "0"%char -> ds = [])) as (d & ds & -> & Hds & Hd0).
  { destruct Hw as [-> | (d & ds & -> & Hd & Hds)].
    - exists "0"%char, []. split; [reflexivity |].
      split; [constructor; [exact Hzero | constructor] | reflexivity].
    - exists d, ds. split; [reflexivity |]. split.
      + constructor; [now apply nonzero_digit_is_digit | exact Hds].
      + intros ->. unfold is_nonzero_digit in Hd. simpl in Hd. lia. }
  assert (fraction = [] \/
          exists fs, fraction = "."%char :: fs /\ fs <> [] /\ Forall is_digit fs)
    as Hf'.
  { destruct Hf as [-> | (f & fs & -> & Hf & Hfs)]; [now left | right].
    exists (f :: fs). repeat split; [discriminate | now constructor]. }
  clear Hw Hf.
  split; [| split; [| split; [| split]]].
  - apply Forall_app. split.
    + eapply Forall_impl; [exact Hds | tauto].
    + destruct Hf' as [-> | (fs & -> & _ & Hfs)]; [constructor |].
      constructor; [now right |]. eapply Forall_impl; [exact Hfs | tauto].
  - rewrite List.filter_app, length_app, (digits_without_point _ Hds).
    destruct Hf' as [-> | (fs & -> & _ & Hfs)]; [simpl; lia |].
    simpl. rewrite (digits_without_point _ Hfs). simpl. lia.
  - exists d, (ds ++ fraction). split; [reflexivity | now inversion Hds].
  - destruct Hf' as [-> | (fs & -> & Hne & Hfs)].
    + rewrite app_nil_r. apply ends_with; [discriminate | exact Hds].
    + destruct (ends_with is_digit fs Hne Hfs) as (front & x & -> & Hx).
      exists ((d :: ds) ++ "."%char :: front), x.
      split; [| exact Hx]. now rewrite <- app_assoc.
  - intros c rest E. simpl in E. injection E as -> E.
    rewrite (Hd0 eq_refl) in E. simpl in E.
    destruct Hf' as [-> | (fs & -> & _ & _)]; [discriminate | congruence].
Qed.

(** X14: an accepted amount is made of digits and at most one point,
    starts with a digit and ends with a digit, and has no digit after a
    leading 0: so no empty amount, sign, exponent or blank gets
    through. *)
Theorem accepted_amount_is_plain (value : string) :
  Regex.test Form.amount_regex value = true ->
  let cs := String.list_ascii_of_string value in
  Forall (fun c => is_digit c \/ c = "."%char) cs /\
  (length (List.filter (Ascii.eqb ".") cs) <= 1)%nat /\
  (exists d rest, cs = d :: rest /\ is_digit d) /\
  (exists front d, cs = front ++ [d] /\ is_digit d) /\
  (forall c rest, cs = "0"%char :: c :: rest -> c = "."%char).
Proof.
  intros H. cbv zeta.
  apply numeral_is_plain, amount_regex_numeral, matches_all_spec, H.
Qed.

Lemma accepted_amount_is_plain_witness :
  Regex.test Form.amount_regex "12.50" = true /\
  let cs := String.list_ascii_of_string "12.50" in
  Forall (fun c => is_digit c \/ c = "."%char) cs /\
  (length (List.filter (Ascii.eqb ".") cs) <= 1)%nat /\
  (exists d rest, cs = d :: rest /\ is_digit d) /\
  (exists front d, cs = front ++ [d] /\ is_digit d) /\
  (forall c rest, cs = "0"%char :: c :: rest -> c = "."%char).
Proof.
  assert (Regex.test Form.amount_regex "12.50" = true) as H by reflexivity.
  exact (conj H (accepted_amount_is_plain "12.50" H)).
Defined.

(** * Further properties: the rows shown *)

Section FilterFacts.
Import Listing.
Variable toLowerCase : string -> string.

Lemma prefix_spec (b a : string) :
  String.prefix b a = true <-> exists q, a = b +:+ q.
Proof.
  revert a. induction b as [|c b IH]; intros a.
  - split; [exists a; reflexivity | intros _; destruct a; reflexivity].
  - destruct a as [|c' a]; simpl;
      [split; [discriminate | intros [q Hq]; discriminate] |].
    destruct (ascii_dec c c') as [<- | Hne].
    + rewrite IH. split; intros [q Hq]; exists q.
      * now rewrite Hq.
      * change (String c a = String c (b +:+ q)) in Hq. congruence.
    + split; [discriminate | intros [q Hq]].
      change (String c' a = String c (b +:+ q)) in Hq. congruence.
Qed.

(** [includes] finds [b] exactly when [b] lies somewhere in [a]. *)
Lemma includes_spec (a b : string) :
  includes a b = true <-> exists p q, a = p +:+ b +:+ q.
Proof.
  induction a as [|c a IH].
  - cbn [includes]. rewrite orb_false_r, prefix_spec. split.
    + intros [q Hq]. now exists "", q.
    + intros (p & q & H). destruct p; [now exists q | discriminate].
  - cbn [includes]. rewrite orb_true_iff, prefix_spec, IH. split.
    + intros [[q Hq] | (p & q & H)].
      * now exists "", q.
      * exists (String c p), q. now rewrite H.
    + intros (p & q & H). destruct p as [|c' p].
      * left. now exists q.
      * right. exists p, q.
        change (String c a = String c' (p +:+ b +:+ q)) in H. congruence.
Qed.

Lemma filter_keeps_all {A : Type} (f : A -> bool) (l : list A) :
  (forall x, f x = true) -> List.filter f l = l.
Proof.
  intros H. induction l as [|x l IH]; simpl; [reflexivity |].
  now rewrite H, IH.
Qed.

Lemma filter_sublist {A : Type} (f : A -> bool) (l : list A) :
  sublist (List.filter f l) l.
Proof.
  induction l as [|x l IH]; simpl; [constructor |].
  destruct (f x); now constructor.
Qed.

End FilterFacts.

(** X15: with the status filter at 'all' and a search term that
    lower-cases to the empty string, every fetched row is shown. *)
Theorem blank_search_shows_all (toLowerCase : string -> string)
    (rows : list Listing.PullRequest) (searchTerm : string) :
  toLowerCase searchTerm = "" ->
  Listing.filteredData toLowerCase (Some rows) searchTerm "all" = rows.
Proof.
  intros H. simpl. apply filter_keeps_all. intros pr.
  unfold Listing.shown. rewrite H.
  replace (Listing.includes (toLowerCase (Listing.title pr)) "") with true
    by (symmetry; apply includes_spec; exists "", (toLowerCase (Listing.title pr));
        reflexivity).
  reflexivity.
Qed.

Lemma blank_search_shows_all_witness :
  id "" = "" /\
  Listing.filteredData id
    (Some [ {| Listing.title := "Fix pager"; Listing.state := "open" |} ])
    "" "all"
  = [ {| Listing.title := "Fix pager"; Listing.state := "open" |} ].
Proof.
  assert (id "" = "") as H by reflexivity.
  exact (conj H (blank_search_shows_all id _ "" H)).
Defined.

(** X16: the rows shown are fetched rows in their fetched order, and a
    fetched row is shown exactly when its lower-cased title contains the
    lower-cased search term and the status filter is 'all' or the row's
    state; a shown row has the state asked of the server whenever one
    was asked.  Without data nothing is shown. *)
Theorem shown_rows (toLowerCase : string -> string)
    (data : option (list Listing.PullRequest))
    (searchTerm statusFilter : string) :
  let rows := Listing.filteredData toLowerCase data searchTerm statusFilter in
  sublist rows (default [] data) /\
  (data = None -> rows = []) /\
  (forall pr : Listing.PullRequest,
      In pr rows <->
      In pr (default [] data) /\
      (exists p q : string,
          toLowerCase (Listing.title pr) = p +:+ toLowerCase searchTerm +:+ q) /\
      (statusFilter = "all" \/ Listing.state pr = statusFilter)) /\
  (forall (pr : Listing.PullRequest) (asked : string),
      In pr rows -> Listing.queryState statusFilter = Some asked ->
      Listing.state pr = asked).
Proof.
  intros rows. subst rows.
  assert (forall pr,
             Listing.shown toLowerCase searchTerm statusFilter pr = true <->
             (exists p q : string,
                 toLowerCase (Listing.title pr)
                 = p +:+ toLowerCase searchTerm +:+ q) /\
             (statusFilter = "all" \/ Listing.state pr = statusFilter)) as Hshown.
  { intros pr. unfold Listing.shown.
    now rewrite andb_true_iff, orb_true_iff, includes_spec, !String.eqb_eq. }
  destruct data as [fetched |]; simpl.
  - split; [apply filter_sublist |]. split; [discriminate |]. split.
    + intros pr. now rewrite filter_In, Hshown.
    + intros pr asked Hin. apply filter_In in Hin as [_ Hpr].
      apply Hshown in Hpr as [_ Hst].
      unfold Listing.queryState.
      destruct (String.eqb_spec statusFilter "all") as [-> | Hne];
        [discriminate |].
      intros [= <-]. destruct Hst; congruence.
  - split; [constructor |]. split; [reflexivity |]. split.
    + intros pr. tauto.
    + intros pr asked [].
Qed.

(** * Further properties: randomDistribute *)

(** * Further properties: randomDistribute *)

(** X18: [randomDistribute] takes exactly people - 1 draws (none when
    people < 1): it leaves the source advanced by that many, and two
    sources that agree on those draws give the same shares. *)
Theorem randomDistribute_takes_its_draws (amount : number) (people : Z)
    (s : source) :
  let n := Z.to_nat (people - 1) in
  (forall i : nat, (randomDistribute amount people s).2 i = s (n + i)%nat) /\
  (forall s' : source,
      (forall i : nat, (i < n)%nat -> s i = s' i) ->
      shares amount people s = shares amount people s').
Proof.
  intros n. split.
  - intros i. unfold randomDistribute, points, times.
    destruct (Z.ltb_spec (people - 1) 1) as [Hlt | Hge].
    + simpl. now replace n with 0%nat by lia.
    + pose proof (times_loop_rest n s i) as H. fold n.
      destruct (times_loop n Math_random s) as [xs s2]. exact H.
  - intros s' Hs. rewrite !shares_eq, !points_fst.
    unfold draws. fold n. now rewrite (taken_agree n s s' Hs).
Qed.
